(** * Brokkr.EventSystem: hashing, event payloads, handler registry and dispatch

    A shallow embedding of [include/Hash.h] and [include/EventManager.h]
    (with the payload component header that follows it), together with the
    properties of the hashing primitive, the handler registry and the
    queue-draining loop. *)

From Stdlib Require Import ZArith List Lia Bool Sorted.
From Stdlib.Strings Require Import Byte Ascii.
From stdpp Require Import base option list gmap strings.

Local Open Scope Z_scope.

(** ** Machine integers *)

(** Truncation to [uint32_t]: every 32-bit unsigned operation of the source
    is followed by this reduction. *)
Definition uint32_t (x : Z) : Z := x mod 2 ^ 32.

(** Conversion to [int]. *)
Definition int (x : Z) : Z := (x + 2 ^ 31) mod 2 ^ 32 - 2 ^ 31.

(** Value of a [uint8_t]. *)
Definition uint8_t (b : byte) : Z := Z.of_N (Byte.to_N b).

(** ** Hash.h *)

Module Hash.

(** [#define CIRCULAR_SHIFT_LEFT_32_BITS(x, r) ((x << r) | (x >> (32 - r)))]
    on a [uint32_t] operand: the left shift drops the bits above bit 31. *)
Definition CIRCULAR_SHIFT_LEFT_32_BITS (x r : Z) : Z :=
  Z.lor (uint32_t (Z.shiftl x r)) (Z.shiftr x (32 - r)).

Definition kC1 : Z := 0xcc9e2d51.
Definition kC2 : Z := 0x1b873593.

(** [static uint32_t FMix(uint32_t hash)] *)
Definition FMix (hash : Z) : Z :=
  let hash := Z.lxor hash (Z.shiftr hash 16) in
  let hash := uint32_t (hash * 0x85ebca6b) in
  let hash := Z.lxor hash (Z.shiftr hash 13) in
  let hash := uint32_t (hash * 0xc2b2ae35) in
  let hash := Z.lxor hash (Z.shiftr hash 16) in
  hash.

(** [data[j]] for the byte buffer [data]. *)
Definition at_index (data : list byte) (j : Z) : Z :=
  uint8_t (nth (Z.to_nat j) data x00).

(** [blocks[i]] where [blocks] is [data + nblocks * 4] viewed as an array of
    [uint32_t]: four bytes starting at byte offset [nblocks * 4 + i * 4],
    the lowest address holding the least significant byte. *)
Definition blocks (data : list byte) (nblocks i : Z) : Z :=
  let o := nblocks * 4 + i * 4 in
  Z.lor (at_index data o)
    (Z.lor (Z.shiftl (at_index data (o + 1)) 8)
       (Z.lor (Z.shiftl (at_index data (o + 2)) 16)
          (Z.shiftl (at_index data (o + 3)) 24))).

(** The loop [for (int i = -nblocks; i; i++)]; [n] counts the iterations
    that remain, so that the loop variable is [i = -n]. *)
Fixpoint block_loop (data : list byte) (nblocks : Z) (n : nat) (hash : Z) : Z :=
  match n with
  | O => hash
  | S n' =>
      let i := - Z.of_nat n in
      let k := blocks data nblocks i in
      let k := uint32_t (k * kC1) in
      let k := CIRCULAR_SHIFT_LEFT_32_BITS k 15 in
      let k := uint32_t (k * kC2) in
      let hash := Z.lxor hash k in
      let hash := CIRCULAR_SHIFT_LEFT_32_BITS hash 13 in
      let hash := uint32_t (hash * 5 + 0xe6546b64) in
      block_loop data nblocks n' hash
  end.

(** The [switch (len & 3)] with its fall-through cases. *)
Definition tail_switch (data : list byte) (nblocks len hash : Z) : Z :=
  let tail j := at_index data (nblocks * 4 + j) in
  let sel := Z.land len 3 in
  let k := 0 in
  let k := if sel =? 3 then Z.lxor k (Z.shiftl (tail 2) 16) else k in
  let k := if (sel =? 3) || (sel =? 2) then Z.lxor k (Z.shiftl (tail 1) 8) else k in
  if (sel =? 3) || (sel =? 2) || (sel =? 1) then
    let k := Z.lxor k (tail 0) in
    let k := uint32_t (k * kC1) in
    let k := CIRCULAR_SHIFT_LEFT_32_BITS k 15 in
    let k := uint32_t (k * kC2) in
    Z.lxor hash k
  else hash.

(** [static uint32_t Murmur3Hash(const void* key, const size_t len,
    const uint32_t seed)]; [key] is the buffer of [len] bytes. *)
Definition Murmur3Hash (key : list byte) (len : Z) (seed : Z) : Z :=
  let data := key in
  let nblocks := int (len / 4) in
  let hash := seed in
  let hash := block_loop data nblocks (Z.to_nat nblocks) hash in
  let hash := tail_switch data nblocks len hash in
  let hash := uint32_t (Z.lxor hash len) in
  let hash := FMix hash in
  hash.

End Hash.

(** ** The one-shot Murmur3-32 algorithm as the specification words it *)

Module Murmur3Spec.

Definition rotl32 (x r : Z) : Z :=
  Z.lor (Z.shiftl x r mod 2 ^ 32) (Z.shiftr x (32 - r)).

(** multiply by C1, rotate left 15, multiply by C2 *)
Definition mix_word (k : Z) : Z :=
  (rotl32 ((k * 0xcc9e2d51) mod 2 ^ 32) 15 * 0x1b873593) mod 2 ^ 32.

(** a block: mix, xor into the hash, rotate left 13, times 5 plus constant *)
Definition mix_block (h k : Z) : Z :=
  (rotl32 (Z.lxor h (mix_word k)) 13 * 5 + 0xe6546b64) mod 2 ^ 32.

(** little-endian word of up to four bytes *)
Fixpoint le_word (bs : list byte) : Z :=
  match bs with
  | [] => 0
  | b :: bs' => Z.lor (uint8_t b) (Z.shiftl (le_word bs') 8)
  end.

(** steps 1 and 2: all full blocks, then the tail without the block
    finalization *)
Fixpoint body (bs : list byte) (h : Z) : Z :=
  match bs with
  | b0 :: b1 :: b2 :: b3 :: rest => body rest (mix_block h (le_word [b0; b1; b2; b3]))
  | tail => Z.lxor h (mix_word (le_word tail))
  end.

(** step 3: the avalanche finisher *)
Definition avalanche (h : Z) : Z :=
  let h := Z.lxor h (Z.shiftr h 16) in
  let h := (h * 0x85ebca6b) mod 2 ^ 32 in
  let h := Z.lxor h (Z.shiftr h 13) in
  let h := (h * 0xc2b2ae35) mod 2 ^ 32 in
  Z.lxor h (Z.shiftr h 16).

Definition murmur3_32 (bs : list byte) (seed : Z) : Z :=
  avalanche (Z.lxor (body bs seed) (Z.of_nat (length bs)) mod 2 ^ 32).

End Murmur3Spec.

(** ** Run-time type descriptors *)

(** A [std::type_info] is identified by its rank in the implementation's
    collation order; [before] is [std::type_info::before]. *)
Abbreviation type_info := N (only parsing).
Definition before (a b : type_info) : bool := (a <? b)%N.

(** ** Events *)

(** Modelled from the spec: Event.h, which declares [Event], its nested
    [EventType] and the component slot map, is not among the sources.  The
    identity pairs the hashed name with a priority level ([int]). *)
Record EventIdentity : Type := { key : Z; priority : Z }.

(** ** Payload components (the declarations that follow EventManager.h) *)

(** [class PayloadComponent] with its pure virtual [ToString]; the concrete
    type is named by its type descriptor. *)
Class PayloadComponent (T : Type) : Type := {
  component_type : type_info;
  ToString : T -> string
}.
Arguments component_type T {_}.

(** [class PayloadTest final : public PayloadComponent]; the owner pointer
    [Event* m_pOwner] is kept as the identity of the event pointed to
    ([None] is [nullptr]). *)
Record PayloadTest : Type := { m_pOwner : option EventIdentity }.

Definition PayloadTest_ToString (this : PayloadTest) : string :=
  "Event Payload Test" +:+ String "010"%char EmptyString.

#[export] Instance PayloadTest_component : PayloadComponent PayloadTest := {
  component_type := 1%N;
  ToString := PayloadTest_ToString
}.

(** An attached component of any concrete type. *)
Record Component : Type := MkComponent {
  concrete : Type;
  concrete_class : PayloadComponent concrete;
  object : concrete
}.
Arguments MkComponent concrete {_} _.

Definition describe (c : Component) : string :=
  @ToString (concrete c) (concrete_class c) (object c).

(** Modelled from the spec: [Event] of Event.h, an identity together with a
    slot map from payload type to the component attached for it. *)
Record Event : Type := {
  identity : EventIdentity;
  payloads : gmap N Component
}.

Definition GetType (e : Event) : Z := key (identity e).
Definition GetPriorityLevel (e : Event) : Z := priority (identity e).

(** Modelled from the spec: [Event::AddComponent<T>(ctorArgs...)] of Event.h.
    It constructs a [T] for the event, passing the event as owner, unless a
    [T] is attached already; the flag tells whether it attached one. *)
Definition AddComponent (T : Type) `{PayloadComponent T}
    (construct : option EventIdentity -> T) (e : Event) : bool * Event :=
  match payloads e !! component_type T with
  | Some _ => (false, e)
  | None =>
      (true,
       {| identity := identity e;
          payloads := <[component_type T := MkComponent T (construct (Some (identity e)))]>
                        (payloads e) |})
  end.

(** Modelled from the spec: [Event::GetComponent<T>()] of Event.h, the
    attached instance or an absent value. *)
Definition GetComponent (T : Type) `{PayloadComponent T} (e : Event) : option Component :=
  payloads e !! component_type T.

(** A later call of [AddComponent], for whatever concrete type. *)
Record Attachment : Type := {
  attached_type : Type;
  attached_class : PayloadComponent attached_type;
  attached_ctor : option EventIdentity -> attached_type
}.

Definition attach (a : Attachment) (e : Event) : bool * Event :=
  @AddComponent (attached_type a) (attached_class a) (attached_ctor a) e.

Definition attach_all (calls : list Attachment) (e : Event) : Event :=
  fold_left (fun e a => (attach a e).2) calls e.

(** ** EventManager.h *)

Section EventManager.

(** The state the callbacks capture and act on. *)
Context {State : Type}.

(** A [std::function<void(const Event&)>] holding a target: the descriptor
    of the target and the target itself.  A call reads the event, updates
    the captured state and may call [PushEvent] on the manager; the events it
    pushes are returned in the order of the calls.  Callbacks that call
    [AddHandler], [RemoveHandler] or [ProcessEvents], that throw, and empty
    functions are not covered: nothing below is a statement about them. *)
Record std_function : Type := {
  target_type : type_info;
  target : Event -> State -> State * list Event
}.

(** [using EventHandler = std::pair<int, std::function<void(const Event&)>>] *)
Definition EventHandler : Type := (Z * std_function)%type.

(** [EventHandlerComparer::operator()] *)
Definition EventHandlerComparer (left right : EventHandler) : bool :=
  if negb (left.1 =? right.1) then left.1 >? right.1
  else before (target_type left.2) (target_type right.2).

(** [EventComparer::operator()] *)
Definition EventComparer (left right : Event) : bool :=
  GetPriorityLevel left <? GetPriorityLevel right.

(** *** [std::set<EventHandler, EventHandlerComparer>]

    The set is the list of its elements in iteration order.  Two elements
    are equivalent when neither compares before the other. *)
Definition equivalent (a b : EventHandler) : bool :=
  negb (EventHandlerComparer a b) && negb (EventHandlerComparer b a).

(** [insert]: the element goes before the first one it precedes; nothing
    is inserted when an equivalent element is met. *)
Fixpoint set_insert (h : EventHandler) (s : list EventHandler) : list EventHandler :=
  match s with
  | [] => [h]
  | x :: s' =>
      if EventHandlerComparer h x then h :: x :: s'
      else if EventHandlerComparer x h then x :: set_insert h s'
      else x :: s'
  end.

(** [erase(key)]: the element equivalent to the key is removed. *)
Fixpoint set_erase (h : EventHandler) (s : list EventHandler) : list EventHandler :=
  match s with
  | [] => []
  | x :: s' => if equivalent x h then s' else x :: set_erase h s'
  end.

(** *** [std::priority_queue<Event, std::vector<Event>, EventComparer>]

    The queue is the list of its elements with [top] at the head: an
    element that no other one exceeds under the comparer.  [push] places
    an event behind the events that are not below it, so that [top] changes
    only when the new event exceeds it.  The order in which events of equal
    priority come out is one of those a heap may give; the theorems on
    whole runs leave that order open. *)
Fixpoint pq_push (e : Event) (q : list Event) : list Event :=
  match q with
  | [] => [e]
  | x :: q' => if EventComparer x e then e :: x :: q' else x :: pq_push e q'
  end.

Definition pq_pop (q : list Event) : list Event := tail q.

Record EventManager : Type := {
  m_handlers : gmap Z (list EventHandler);
  m_eventQueue : list Event
}.

(** A freshly constructed manager. *)
Definition new_manager : EventManager :=
  {| m_handlers := ∅; m_eventQueue := [] |}.

(** [void AddHandler(uint32_t eventHash, const EventHandler& handler)];
    [m_handlers[eventHash]] creates an empty set for a key that has none. *)
Definition AddHandler (eventHash : Z) (handler : EventHandler) (m : EventManager)
    : EventManager :=
  {| m_handlers :=
       <[eventHash := set_insert handler (default [] (m_handlers m !! eventHash))]>
         (m_handlers m);
     m_eventQueue := m_eventQueue m |}.

(** [void RemoveHandler(uint32_t eventHash, const EventHandler& handler)];
    the line it writes to [std::cout] is not part of the state. *)
Definition RemoveHandler (eventHash : Z) (handler : EventHandler) (m : EventManager)
    : EventManager :=
  match m_handlers m !! eventHash with
  | Some handlers =>
      {| m_handlers := <[eventHash := set_erase handler handlers]> (m_handlers m);
         m_eventQueue := m_eventQueue m |}
  | None => m
  end.

(** [void PushEvent(const Event& event)] *)
Definition PushEvent (event : Event) (m : EventManager) : EventManager :=
  {| m_handlers := m_handlers m; m_eventQueue := pq_push event (m_eventQueue m) |}.

(** The calls of [PushEvent] a callback makes, in order. *)
Definition push_all (pushed : list Event) (m : EventManager) : EventManager :=
  fold_left (fun m e => PushEvent e m) pushed m.

(** What a run of [ProcessEvents] does, in order: the event read by
    [top()] at the start of an iteration together with the queue at that
    moment, each call of a handler with the event it is given, and the
    event removed by [pop()]. *)
Inductive Observation : Type :=
| Dispatch (event : Event) (pending : list Event)
| Invoke (handler : EventHandler) (event : Event)
| Discard (event : Event).

Record World : Type := {
  manager : EventManager;
  captured : State;
  trace : list Observation
}.

Definition observe (o : Observation) (w : World) : World :=
  {| manager := manager w; captured := captured w; trace := trace w ++ [o] |}.

(** [handler.second(event)].  [event] is the reference returned by
    [top()]: it names the first slot of the queue, so a call made after an
    earlier handler pushed an event above the old top reads that event.
    In the code the reference is good only as long as no push has made the
    vector reallocate; what a handler called after a push of an earlier
    handler of the same dispatch is given is then not defined.  The results
    on what the handlers are given and do are stated for dispatches in which
    only the handler called last pushes ([last_pushes]).
    The queue is never empty here: the loop entered with an element and
    callbacks only push. *)
Definition invoke (w : World) (handler : EventHandler) : World :=
  match m_eventQueue (manager w) with
  | [] => w
  | event :: _ =>
      let '(s, pushed) := target handler.2 event (captured w) in
      {| manager := push_all pushed (manager w);
         captured := s;
         trace := trace w ++ [Invoke handler event] |}
  end.

(** [m_eventQueue.pop()], called on a non-empty queue. *)
Definition pop (w : World) : World :=
  match m_eventQueue (manager w) with
  | [] => w
  | event :: _ =>
      {| manager := {| m_handlers := m_handlers (manager w);
                       m_eventQueue := pq_pop (m_eventQueue (manager w)) |};
         captured := captured w;
         trace := trace w ++ [Discard event] |}
  end.

(** The body of the [while] loop of [ProcessEvents], entered with a
    non-empty queue. *)
Definition iteration (w : World) : World :=
  match m_eventQueue (manager w) with
  | [] => w
  | event :: _ =>
      let w := observe (Dispatch event (m_eventQueue (manager w))) w in
      let w :=
        match m_handlers (manager w) !! GetType event with
        | Some handlers => fold_left invoke handlers w
        | None => w
        end in
      pop w
  end.

(** [void ProcessEvents()]: [while (!m_eventQueue.empty())] runs the body;
    [fuel] bounds the number of iterations, and [None] is a run that needs
    more of them. *)
Fixpoint ProcessEvents (fuel : nat) (w : World) : option World :=
  match m_eventQueue (manager w) with
  | [] => Some w
  | _ :: _ =>
      match fuel with
      | O => None
      | S fuel' => ProcessEvents fuel' (iteration w)
      end
  end.

(** The handlers called and the events dispatched, read off a trace. *)
Definition invoked (t : list Observation) : list EventHandler :=
  omap (fun o => match o with Invoke h _ => Some h | _ => None end) t.

Definition dispatched (t : list Observation) : list Event :=
  omap (fun o => match o with Dispatch e _ => Some e | _ => None end) t.

Definition discarded (t : list Observation) : list Event :=
  omap (fun o => match o with Discard e => Some e | _ => None end) t.

(** *** Orders and representation invariants *)

(** The order the registry keeps: priority descending, then the type
    descriptor of the callback ascending. *)
Definition precedes (a b : EventHandler) : Prop :=
  b.1 < a.1 \/ (a.1 = b.1 /\ (target_type a.2 < target_type b.2)%N).

(** The identity of a handler inside a set: its priority and the type
    descriptor of its callback. *)
Definition same_element (a b : EventHandler) : Prop :=
  a.1 = b.1 /\ target_type a.2 = target_type b.2.

Definition handler_id (a : EventHandler) : Z * type_info := (a.1, target_type a.2).

(** A [std::set] iterates in strictly increasing comparator order. *)
Definition set_ok (s : list EventHandler) : Prop :=
  StronglySorted (fun a b => EventHandlerComparer a b = true) s.

(** No event of a [std::priority_queue] is above an earlier one. *)
Definition queue_ok (q : list Event) : Prop :=
  StronglySorted (fun a b => EventComparer a b = false) q.

(** The invariants of the two containers of a manager. *)
Definition manager_ok (m : EventManager) : Prop :=
  queue_ok (m_eventQueue m) /\
  forall eventHash s, m_handlers m !! eventHash = Some s -> set_ok s.

(** Registering a list of handlers for one key, first to last. *)
Definition register (eventHash : Z) (hs : list EventHandler) (m : EventManager)
    : EventManager :=
  fold_left (fun m h => AddHandler eventHash h m) hs m.

(** The handler set of a key ([nil] when the key has none). *)
Definition handlers_of (eventHash : Z) (m : EventManager) : list EventHandler :=
  default [] (m_handlers m !! eventHash).

(** A world around a manager. *)
Definition world (m : EventManager) (s : State) (t : list Observation) : World :=
  {| manager := m; captured := s; trace := t |}.

(** The top of a dispatch is a greatest element of the queue it is read
    from. *)
Definition dispatch_maximal (o : Observation) : Prop :=
  match o with
  | Dispatch event pending =>
      event ∈ pending /\
      forall e, e ∈ pending -> GetPriorityLevel e <= GetPriorityLevel event
  | _ => True
  end.

(** A handler whose pushes never exceed priority [p]. *)
Definition pushes_at_most (h : EventHandler) (p : Z) : Prop :=
  forall event st e, e ∈ (target h.2 event st).2 -> GetPriorityLevel e <= p.

(** The managers the public operations build. *)
Inductive reachable : EventManager -> Prop :=
| reach_new : reachable new_manager
| reach_AddHandler eventHash handler m :
    reachable m -> reachable (AddHandler eventHash handler m)
| reach_RemoveHandler eventHash handler m :
    reachable m -> reachable (RemoveHandler eventHash handler m)
| reach_PushEvent event m :
    reachable m -> reachable (PushEvent event m)
| reach_ProcessEvents fuel w w' :
    reachable (manager w) -> ProcessEvents fuel w = Some w' -> reachable (manager w').

(** Handlers that never push an event. *)
Definition quiet (m : EventManager) : Prop :=
  forall eventHash s h event st,
    m_handlers m !! eventHash = Some s -> h ∈ s -> (target h.2 event st).2 = [].

End EventManager.

Arguments std_function : clear implicits.
Arguments EventHandler : clear implicits.
Arguments EventManager : clear implicits.
Arguments Observation : clear implicits.
Arguments World : clear implicits.

(** *** The overloads that take the event name *)

Section ByName.

Context {State : Type}.

(** [Event::EventType::HashEventString] belongs to Event.h, which is not
    among the sources: the overloads are given for any such function. *)
Variable HashEventString : string -> Z.

(** [void AddHandler(const char* eventTypeString, const EventHandler& handler)] *)
Definition AddHandler_by_name (eventTypeString : string) (handler : EventHandler State)
    (m : EventManager State) : EventManager State :=
  AddHandler (HashEventString eventTypeString) handler m.

(** [void RemoveHandler(const char* eventTypeString, const EventHandler& handler)] *)
Definition RemoveHandler_by_name (eventTypeString : string) (handler : EventHandler State)
    (m : EventManager State) : EventManager State :=
  RemoveHandler (HashEventString eventTypeString) handler m.

End ByName.

(** *** Callbacks of one dispatch taken together *)

Section Dispatch.

Context {State : Type}.

(** A handler that, called with [event], pushes nothing above it. *)
Definition pushes_below (event : Event) (h : EventHandler State) : Prop :=
  forall st e,
    e ∈ (target h.2 event st).2 -> GetPriorityLevel e <= GetPriorityLevel event.

(** A handler that, called with [event], pushes nothing. *)
Definition silent_on (event : Event) (h : EventHandler State) : Prop :=
  forall st, (target h.2 event st).2 = [].

(** Of the handlers called for [event], only the one called last pushes:
    no handler is called after a push, so that the reference [event] of
    the loop is the dispatched event at every call. *)
Definition last_pushes (event : Event) (hs : list (EventHandler State)) : Prop :=
  forall h, h ∈ removelast hs -> silent_on event h.

(** A manager in which this holds of every set, for the events of its key. *)
Definition one_pusher (m : EventManager State) : Prop :=
  forall eventHash s event,
    m_handlers m !! eventHash = Some s -> GetType event = eventHash ->
    last_pushes event s.

(** A manager in which, moreover, no handler pushes above the event it is
    called with. *)
Definition orderly (m : EventManager State) : Prop :=
  one_pusher m /\
  forall eventHash s h event,
    m_handlers m !! eventHash = Some s -> h ∈ s -> GetType event = eventHash ->
    pushes_below event h.

(** The handlers of a set called one after the other with one event: the
    captured state they leave and the events they push, in order. *)
Fixpoint call_all (hs : list (EventHandler State)) (event : Event) (s : State)
    : State * list Event :=
  match hs with
  | [] => (s, [])
  | h :: hs' =>
      let '(s1, pushed1) := target h.2 event s in
      let '(s2, pushed2) := call_all hs' event s1 in
      (s2, pushed1 ++ pushed2)
  end.

End Dispatch.

(** ** Scenarios *)

Definition bytes_of (s : string) : list byte := String.list_byte_of_string s.

(** An event without payload. *)
Definition plain_event (k p : Z) : Event :=
  {| identity := {| key := k; priority := p |}; payloads := ∅ |}.

(** A callback that only reads the event. *)
Definition silent {State : Type} (ty : type_info) : std_function State :=
  {| target_type := ty; target := fun _ s => (s, []) |}.

(** A handler of a low-priority event pushes a high-priority event the first
    time it runs; the captured flag records that it did. *)
Module Reentrant.

Definition low : Event := plain_event 1 5.
Definition high : Event := plain_event 2 10.

Definition push_high_once : std_function bool :=
  {| target_type := 1%N;
     target := fun _ (pushed : bool) => if pushed then (pushed, []) else (true, [high]) |}.

Definition on_low : EventHandler bool := (0, push_high_once).
Definition on_high : EventHandler bool := (0, silent 2%N).

Definition start : World bool :=
  world (PushEvent low (AddHandler 2 on_high (AddHandler 1 on_low new_manager))) false [].

End Reentrant.

(** * Properties *)

(** ** The hash *)

Section HashFacts.

Import Hash Murmur3Spec.

Lemma uint8_t_range (b : byte) : 0 <= uint8_t b < 2 ^ 8.
Proof.
  unfold uint8_t. pose proof (Byte.to_N_bounded b) as Hb.
  change (2 ^ 8) with 256. lia.
Qed.

Lemma land_low_shiftl (a c k : Z) :
  0 <= k -> 0 <= a < 2 ^ k -> Z.land a (Z.shiftl c k) = 0.
Proof.
  intros Hk Ha. apply Z.bits_inj'. intros n Hn.
  rewrite Z.land_spec, Z.bits_0.
  destruct (Z.lt_ge_cases n k) as [Hlt | Hge].
  - rewrite Z.shiftl_spec_low by lia. apply andb_false_r.
  - replace (Z.testbit a n) with false; [reflexivity |].
    symmetry. destruct (Z.eq_dec a 0) as [-> | Hne].
    + apply Z.bits_0.
    + apply Z.bits_above_log2; [lia |].
      apply Z.lt_le_trans with k; [| lia].
      apply Z.log2_lt_pow2; lia.
Qed.

Lemma lxor_low_shiftl (a c k : Z) :
  0 <= k -> 0 <= a < 2 ^ k -> Z.lxor (Z.shiftl c k) a = Z.lor a (Z.shiftl c k).
Proof.
  intros Hk Ha. rewrite Z.lxor_comm. apply Z.lxor_lor.
  now apply land_low_shiftl.
Qed.

Lemma rotate_agrees (x r : Z) : CIRCULAR_SHIFT_LEFT_32_BITS x r = rotl32 x r.
Proof. reflexivity. Qed.

Lemma FMix_agrees (h : Z) : FMix h = avalanche h.
Proof. reflexivity. Qed.

Lemma mix_word_0 : mix_word 0 = 0.
Proof. reflexivity. Qed.

(** Reading the buffer behind a prefix. *)
Lemma at_index_app (pre rest : list byte) (j : nat) :
  at_index (pre ++ rest) (Z.of_nat (length pre) + Z.of_nat j) = uint8_t (nth j rest x00).
Proof.
  unfold at_index. f_equal.
  replace (Z.to_nat (Z.of_nat (length pre) + Z.of_nat j)) with (length pre + j)%nat by lia.
  rewrite app_nth2 by lia. f_equal. lia.
Qed.

Lemma blocks_le_word (pre rest : list byte) (b0 b1 b2 b3 : byte) (nb i : Z) :
  nb * 4 + i * 4 = Z.of_nat (length pre) ->
  blocks (pre ++ b0 :: b1 :: b2 :: b3 :: rest) nb i = le_word [b0; b1; b2; b3].
Proof.
  intros Ho. unfold blocks. rewrite Ho.
  pose proof (at_index_app pre (b0 :: b1 :: b2 :: b3 :: rest)) as Hat.
  pose proof (Hat 0%nat) as H0. pose proof (Hat 1%nat) as H1.
  pose proof (Hat 2%nat) as H2. pose proof (Hat 3%nat) as H3.
  change (Z.of_nat 0) with 0 in H0. change (Z.of_nat 1) with 1 in H1.
  change (Z.of_nat 2) with 2 in H2. change (Z.of_nat 3) with 3 in H3.
  rewrite Z.add_0_r in H0. cbn [nth] in H0, H1, H2, H3.
  rewrite H0, H1, H2, H3. cbn [le_word].
  rewrite Z.shiftl_0_l, Z.lor_0_r.
  rewrite !Z.shiftl_lor, !Z.shiftl_shiftl by lia. reflexivity.
Qed.

(** The loop followed by the tail, against steps 1 and 2. *)
Lemma block_loop_body (n : nat) :
  forall (pre rest : list byte) (h nb : Z),
    Z.of_nat (length pre) = (nb - Z.of_nat n) * 4 ->
    (4 * n <= length rest < 4 * n + 4)%nat ->
    body rest h =
      Z.lxor (block_loop (pre ++ rest) nb n h) (mix_word (le_word (drop (4 * n) rest))).
Proof.
  induction n as [| n IH]; intros pre rest h nb Hpre Hlen.
  - cbn [block_loop Nat.mul drop].
    destruct rest as [| b0 [| b1 [| b2 [| b3 rest]]]]; try reflexivity.
    cbn [length] in Hlen. lia.
  - destruct rest as [| b0 [| b1 [| b2 [| b3 rest]]]]; cbn [length] in Hlen; try lia.
    cbn [body block_loop].
    rewrite blocks_le_word by lia.
    replace (4 * S n)%nat with (4 + 4 * n)%nat by lia.
    cbn [drop Nat.add].
    replace (pre ++ b0 :: b1 :: b2 :: b3 :: rest)
      with ((pre ++ [b0; b1; b2; b3]) ++ rest) by (now rewrite <- app_assoc).
    rewrite (IH (pre ++ [b0; b1; b2; b3]) rest _ nb).
    + reflexivity.
    + rewrite length_app. cbn [length]. lia.
    + lia.
Qed.

(** The fall-through switch builds the little-endian word of the tail. *)
Lemma tail_switch_le_word (data : list byte) (nb len h : Z) (t : list byte) :
  nb * 4 = Z.of_nat (length data) - Z.of_nat (length t) ->
  drop (length data - length t) data = t ->
  (length t < 4)%nat ->
  Z.land len 3 = Z.of_nat (length t) ->
  tail_switch data nb len h = Z.lxor h (mix_word (le_word t)).
Proof.
  intros Hnb Hdrop Hlt Hsel.
  assert (Hdata : data = take (length data - length t) data ++ t).
  { rewrite <- Hdrop at 2. now rewrite take_drop. }
  assert (Hpre : Z.of_nat (length (take (length data - length t) data)) = nb * 4).
  { rewrite length_take. lia. }
  assert (Hat : forall j : nat,
             at_index data (nb * 4 + Z.of_nat j) = uint8_t (nth j t x00)).
  { intros j. rewrite Hdata at 1. rewrite <- Hpre. apply at_index_app. }
  unfold tail_switch. rewrite Hsel.
  pose proof (Hat 0%nat) as H0. pose proof (Hat 1%nat) as H1. pose proof (Hat 2%nat) as H2.
  change (Z.of_nat 0) with 0 in H0. change (Z.of_nat 1) with 1 in H1.
  change (Z.of_nat 2) with 2 in H2.
  rewrite H0, H1, H2. clear - Hlt.
  destruct t as [| b0 [| b1 [| b2 [| b3 t]]]]; cbn [length] in Hlt; try lia;
    cbn [length nth le_word];
    repeat match goal with
      | |- context [Z.of_nat ?n =? ?m] =>
          let b := eval vm_compute in (Z.of_nat n =? m) in
          change (Z.of_nat n =? m) with b
      end;
    cbn [orb].
  - rewrite mix_word_0. now rewrite Z.lxor_0_r.
  - rewrite Z.shiftl_0_l, Z.lor_0_r, Z.lxor_0_l. reflexivity.
  - rewrite Z.shiftl_0_l, !Z.lor_0_r, Z.lxor_0_l.
    rewrite lxor_low_shiftl by (try apply uint8_t_range; lia). reflexivity.
  - rewrite Z.shiftl_0_l, !Z.lor_0_r, Z.lxor_0_l.
    rewrite Z.shiftl_lor, Z.shiftl_shiftl by lia. cbn [Z.add Pos.add Pos.succ].
    change 16 with (8 + 8). rewrite <- (Z.shiftl_shiftl (uint8_t b2) 8 8) by lia.
    rewrite <- Z.shiftl_lxor.
    rewrite (lxor_low_shiftl (uint8_t b1)) by (try apply uint8_t_range; lia).
    rewrite lxor_low_shiftl by (try apply uint8_t_range; lia).
    rewrite Z.shiftl_lor. reflexivity.
Qed.

Lemma int_small (x : Z) : 0 <= x < 2 ^ 31 -> int x = x.
Proof.
  intros Hx. unfold int. rewrite Z.mod_small; lia.
Qed.

End HashFacts.

(** ** The comparators *)

Section ComparerFacts.

Context {State : Type}.
Implicit Types a b c h : EventHandler State.

Lemma EventHandlerComparer_precedes a b :
  EventHandlerComparer a b = true <-> precedes a b.
Proof.
  unfold EventHandlerComparer, precedes, before.
  destruct (Z.eqb_spec a.1 b.1) as [Heq | Hne]; cbn [negb].
  - rewrite N.ltb_lt. split; [intros H; right; auto | intros [H | [_ H]]; [lia | auto]].
  - rewrite Z.gtb_ltb, Z.ltb_lt. split; [intros H; left; auto | intros [H | [H _]]; [auto | contradiction]].
Qed.

Lemma EventHandlerComparer_false a b :
  EventHandlerComparer a b = false <-> ~ precedes a b.
Proof.
  rewrite <- EventHandlerComparer_precedes. symmetry. apply not_true_iff_false.
Qed.

Lemma equivalent_same_element a b : equivalent a b = true <-> same_element a b.
Proof.
  unfold equivalent. rewrite andb_true_iff, !negb_true_iff, !EventHandlerComparer_false.
  unfold precedes, same_element. lia.
Qed.

Lemma equivalent_false a b : equivalent a b = false <-> ~ same_element a b.
Proof.
  rewrite <- equivalent_same_element. symmetry. apply not_true_iff_false.
Qed.

Lemma precedes_irrefl a : ~ precedes a a.
Proof. unfold precedes. lia. Qed.

Lemma precedes_trans a b c : precedes a b -> precedes b c -> precedes a c.
Proof. unfold precedes. lia. Qed.

Lemma precedes_total a b : precedes a b \/ same_element a b \/ precedes b a.
Proof. unfold precedes, same_element. lia. Qed.

Lemma precedes_not_same a b : precedes a b -> ~ same_element a b.
Proof. unfold precedes, same_element. lia. Qed.

Lemma same_element_precedes_l a b c : same_element a b -> precedes a c -> precedes b c.
Proof. unfold precedes, same_element. lia. Qed.

Lemma same_element_precedes_r a b c : same_element a b -> precedes c a -> precedes c b.
Proof. unfold precedes, same_element. lia. Qed.

Lemma same_element_sym a b : same_element a b -> same_element b a.
Proof. unfold same_element. intuition congruence. Qed.

Lemma EventComparer_false (x y : Event) :
  EventComparer x y = false <-> GetPriorityLevel y <= GetPriorityLevel x.
Proof. unfold EventComparer. rewrite Z.ltb_ge. reflexivity. Qed.

Lemma EventComparer_true (x y : Event) :
  EventComparer x y = true <-> GetPriorityLevel x < GetPriorityLevel y.
Proof. unfold EventComparer. rewrite Z.ltb_lt. reflexivity. Qed.

End ComparerFacts.

(** ** The handler set *)

Section SetFacts.

Context {State : Type}.
Implicit Types x y h : EventHandler State.
Implicit Types s : list (EventHandler State).

Ltac compare a b :=
  let E := fresh "E" in
  destruct (EventHandlerComparer a b) eqn:E;
  [apply EventHandlerComparer_precedes in E | apply EventHandlerComparer_false in E].

Lemma set_ok_cons x s :
  set_ok (x :: s) <-> set_ok s /\ forall y, y ∈ s -> precedes x y.
Proof.
  unfold set_ok. split.
  - intros H. inversion H as [| ? ? Hs Hx]; subst. split; [assumption |].
    intros y Hy. apply EventHandlerComparer_precedes.
    rewrite Forall_forall in Hx. now apply Hx.
  - intros [Hs Hx]. constructor; [assumption |].
    apply Forall_forall. intros y Hy. apply EventHandlerComparer_precedes. now apply Hx.
Qed.

Lemma set_ok_nil : set_ok (@nil (EventHandler State)).
Proof. constructor. Qed.

Lemma elem_of_set_insert h s y : y ∈ set_insert h s -> y = h \/ y ∈ s.
Proof.
  induction s as [| x s IH]; cbn [set_insert].
  - intros Hy. apply list_elem_of_singleton in Hy. now left.
  - compare h x.
    + intros Hy. apply elem_of_cons in Hy as [-> | Hy]; [now left | now right].
    + compare x h; [| now right].
      intros Hy. apply elem_of_cons in Hy as [-> | Hy].
      * right. apply elem_of_cons. now left.
      * destruct (IH Hy) as [-> | Hs]; [now left |].
        right. apply elem_of_cons. now right.
Qed.

Lemma set_insert_keeps h s y : y ∈ s -> y ∈ set_insert h s.
Proof.
  induction s as [| x s IH]; cbn [set_insert]; [intros Hy; inversion Hy |].
  intros Hy. compare h x.
  - apply elem_of_cons. now right.
  - compare x h; [| assumption].
    apply elem_of_cons in Hy as [-> | Hy]; apply elem_of_cons; [now left | right; auto].
Qed.

Lemma set_insert_ok h s : set_ok s -> set_ok (set_insert h s).
Proof.
  induction s as [| x s IH]; cbn [set_insert]; intros Hok.
  - apply set_ok_cons. split; [apply set_ok_nil |]. intros y Hy. inversion Hy.
  - pose proof Hok as Hok'. apply set_ok_cons in Hok' as [Hs Hx].
    compare h x.
    + apply set_ok_cons. split; [assumption |].
      intros y Hy. apply elem_of_cons in Hy as [-> | Hy]; [assumption |].
      apply precedes_trans with x; auto.
    + compare x h; [| assumption].
      apply set_ok_cons. split; [auto |].
      intros y Hy. destruct (elem_of_set_insert _ _ _ Hy) as [-> | Hy']; auto.
Qed.

(** Inserting an element that is already there, up to its callback,
    changes nothing. *)
Lemma set_insert_same h s x :
  set_ok s -> x ∈ s -> same_element x h -> set_insert h s = s.
Proof.
  induction s as [| z s IH]; intros Hok Hx Hsame; [inversion Hx |].
  apply set_ok_cons in Hok as [Hs Hz]. cbn [set_insert].
  apply elem_of_cons in Hx as [<- | Hx].
  - compare h x; [exfalso; revert Hsame E; unfold precedes, same_element; lia |].
    compare x h; [exfalso; revert Hsame E0; unfold precedes, same_element; lia |].
    reflexivity.
  - pose proof (Hz x Hx) as Hzx.
    compare h z; [exfalso; revert Hsame E Hzx; unfold precedes, same_element; lia |].
    compare z h; [| reflexivity].
    f_equal. now apply IH.
Qed.

Lemma set_insert_fresh h s :
  (forall x, x ∈ s -> ~ same_element x h) -> h ∈ set_insert h s.
Proof.
  induction s as [| z s IH]; intros Hfresh; cbn [set_insert].
  - apply list_elem_of_singleton. reflexivity.
  - compare h z; [apply elem_of_cons; now left |].
    compare z h.
    + apply elem_of_cons. right. apply IH. intros x Hx. apply Hfresh.
      apply elem_of_cons. now right.
    + exfalso. apply (Hfresh z); [apply elem_of_cons; now left |].
      revert E E0. unfold precedes, same_element. lia.
Qed.

Lemma classic_same h s :
  (exists x, x ∈ s /\ same_element x h) \/ (forall x, x ∈ s -> ~ same_element x h).
Proof.
  induction s as [| z s [[x [Hx Hsame]] | Hnone]].
  - right. intros x Hx. inversion Hx.
  - left. exists x. split; [apply elem_of_cons; now right | assumption].
  - destruct (equivalent z h) eqn:E.
    + left. exists z. split; [apply elem_of_cons; now left |].
      now apply equivalent_same_element.
    + right. intros x Hx. apply elem_of_cons in Hx as [-> | Hx]; [| auto].
      now apply equivalent_false.
Qed.

(** Membership after an insertion into a set. *)
Lemma elem_of_set_insert_iff h s y :
  set_ok s ->
  y ∈ set_insert h s <->
  y ∈ s \/ (y = h /\ forall x, x ∈ s -> ~ same_element x h).
Proof.
  intros Hok. split.
  - intros Hy. destruct (elem_of_set_insert _ _ _ Hy) as [-> | Hs]; [| now left].
    destruct (classic_same h s) as [[x [Hx Hsame]] | Hnone].
    + left. rewrite (set_insert_same h s x) in Hy; auto.
    + right. split; [reflexivity | assumption].
  - intros [Hy | [-> Hfresh]]; [now apply set_insert_keeps | now apply set_insert_fresh].
Qed.

Lemma elem_of_set_erase h s y : y ∈ set_erase h s -> y ∈ s.
Proof.
  induction s as [| x s IH]; cbn [set_erase]; [auto |].
  destruct (equivalent x h).
  - intros Hy. apply elem_of_cons. now right.
  - intros Hy. apply elem_of_cons in Hy as [-> | Hy]; apply elem_of_cons; [now left | right; auto].
Qed.

Lemma set_erase_ok h s : set_ok s -> set_ok (set_erase h s).
Proof.
  induction s as [| x s IH]; cbn [set_erase]; [auto |].
  intros Hok. apply set_ok_cons in Hok as [Hs Hx].
  destruct (equivalent x h); [assumption |].
  apply set_ok_cons. split; [auto |].
  intros y Hy. apply Hx. now apply elem_of_set_erase in Hy.
Qed.

(** Erasing with a key that matches no element changes nothing. *)
Lemma set_erase_unmatched h s :
  (forall x, x ∈ s -> ~ same_element x h) -> set_erase h s = s.
Proof.
  induction s as [| x s IH]; intros Hnone; cbn [set_erase]; [reflexivity |].
  destruct (equivalent x h) eqn:E.
  - exfalso. apply (Hnone x); [apply elem_of_cons; now left |].
    now apply equivalent_same_element.
  - f_equal. apply IH. intros y Hy. apply Hnone. apply elem_of_cons. now right.
Qed.

(** Only an element that matches the key can disappear. *)
Lemma set_erase_only_matching h s y :
  y ∈ s -> y ∉ set_erase h s -> same_element y h.
Proof.
  induction s as [| x s IH]; intros Hy Hgone; [inversion Hy |].
  cbn [set_erase] in Hgone. destruct (equivalent x h) eqn:E.
  - apply elem_of_cons in Hy as [-> | Hy]; [| contradiction].
    now apply equivalent_same_element.
  - apply not_elem_of_cons in Hgone as [Hne Hgone].
    apply elem_of_cons in Hy as [-> | Hy]; [contradiction | auto].
Qed.

(** In a set, the element that matches the key does disappear. *)
Lemma elem_of_set_erase_iff h s y :
  set_ok s -> y ∈ set_erase h s <-> y ∈ s /\ ~ same_element y h.
Proof.
  induction s as [| x s IH]; intros Hok; cbn [set_erase].
  - split; [intros Hy; inversion Hy | intros [Hy _]; inversion Hy].
  - apply set_ok_cons in Hok as [Hs Hx]. destruct (equivalent x h) eqn:E.
    + apply equivalent_same_element in E. split.
      * intros Hy. split; [apply elem_of_cons; now right |].
        pose proof (Hx y Hy) as Hxy. revert E Hxy. unfold precedes, same_element. lia.
      * intros [Hy Hns]. apply elem_of_cons in Hy as [-> | Hy]; [contradiction | assumption].
    + apply equivalent_false in E. rewrite !elem_of_cons, IH by assumption.
      split.
      * intros [-> | [Hy Hns]]; [split; [now left | assumption] | split; [now right | assumption]].
      * intros [[-> | Hy] Hns]; [now left | right; split; assumption].
Qed.

(** A set holds at most one element matching a key. *)
Lemma set_ok_one_match h s x :
  set_ok s -> x ∈ s -> same_element x h ->
  length (List.filter (fun y => equivalent y h) s) = 1%nat.
Proof.
  induction s as [| z s IH]; intros Hok Hx Hsame; [inversion Hx |].
  apply set_ok_cons in Hok as [Hs Hz]. cbn [List.filter].
  apply elem_of_cons in Hx as [<- | Hx].
  - apply equivalent_same_element in Hsame as Heq. rewrite Heq. cbn [length]. f_equal.
    clear IH. induction s as [| y s IHs]; [reflexivity |].
    apply set_ok_cons in Hs as [Hs Hy]. cbn [List.filter].
    assert (Hxy : precedes x y) by (apply Hz, elem_of_cons; now left).
    destruct (equivalent y h) eqn:E.
    + apply equivalent_same_element in E. exfalso.
      revert E Hsame Hxy. unfold precedes, same_element. lia.
    + apply IHs; [assumption |]. intros y' Hy'. apply Hz. apply elem_of_cons. now right.
  - destruct (equivalent z h) eqn:E; [| now apply IH].
    apply equivalent_same_element in E. exfalso.
    pose proof (Hz x Hx) as Hzx. revert E Hsame Hzx. unfold precedes, same_element. lia.
Qed.

(** Two sets with the same elements iterate alike. *)
Lemma set_ok_ext s1 :
  forall s2, set_ok s1 -> set_ok s2 -> (forall y, y ∈ s1 <-> y ∈ s2) -> s1 = s2.
Proof.
  induction s1 as [| x1 s1 IH]; intros [| x2 s2] H1 H2 Hmem.
  - reflexivity.
  - exfalso. assert (Hin : x2 ∈ @nil (EventHandler State)) by (apply Hmem, elem_of_cons; now left).
    inversion Hin.
  - exfalso. assert (Hin : x1 ∈ @nil (EventHandler State)) by (apply Hmem, elem_of_cons; now left).
    inversion Hin.
  - apply set_ok_cons in H1 as [Hs1 Hx1]. apply set_ok_cons in H2 as [Hs2 Hx2].
    assert (Hhead : x1 = x2).
    { assert (Ha : x1 ∈ x2 :: s2) by (apply Hmem, elem_of_cons; now left).
      assert (Hb : x2 ∈ x1 :: s1) by (apply Hmem, elem_of_cons; now left).
      apply elem_of_cons in Ha as [-> | Ha]; [reflexivity |].
      apply elem_of_cons in Hb as [-> | Hb]; [reflexivity |].
      exfalso. apply (precedes_irrefl x1).
      apply precedes_trans with x2; auto. }
    subst x2. f_equal. apply IH; [assumption | assumption |].
    intros y. split; intros Hy.
    + assert (Ha : y ∈ x1 :: s2) by (apply Hmem, elem_of_cons; now right).
      apply elem_of_cons in Ha as [-> | Ha]; [| assumption].
      exfalso. apply (precedes_irrefl x1). auto.
    + assert (Ha : y ∈ x1 :: s1) by (apply Hmem, elem_of_cons; now right).
      apply elem_of_cons in Ha as [-> | Ha]; [| assumption].
      exfalso. apply (precedes_irrefl x1). auto.
Qed.

(** Insertions of two different elements commute. *)
Lemma set_insert_comm h1 h2 s :
  set_ok s -> ~ same_element h1 h2 ->
  set_insert h1 (set_insert h2 s) = set_insert h2 (set_insert h1 s).
Proof.
  intros Hok Hdiff.
  assert (Hdiff' : ~ same_element h2 h1) by (intros H; now apply Hdiff, same_element_sym).
  assert (Hside : forall a b y, ~ same_element a b ->
            ((y = a /\ forall x, x ∈ set_insert b s -> ~ same_element x a) <->
             (y = a /\ forall x, x ∈ s -> ~ same_element x a))).
  { intros a b y Hab. split; intros [-> Hfresh]; (split; [reflexivity |]).
    - intros x Hx. apply Hfresh. now apply set_insert_keeps.
    - intros x Hx. destruct (elem_of_set_insert _ _ _ Hx) as [-> | Hx']; [| auto].
      intros H. now apply Hab, same_element_sym. }
  apply set_ok_ext; try (apply set_insert_ok, set_insert_ok; assumption).
  intros y.
  rewrite (elem_of_set_insert_iff h1) by now apply set_insert_ok.
  rewrite (elem_of_set_insert_iff h2 (set_insert h1 s)) by now apply set_insert_ok.
  rewrite (Hside h1 h2 y Hdiff), (Hside h2 h1 y Hdiff').
  rewrite !elem_of_set_insert_iff by assumption.
  tauto.
Qed.

End SetFacts.

(** ** The event queue *)

Section QueueFacts.

Implicit Types e x y : Event.
Implicit Types q : list Event.

Lemma queue_ok_cons x q :
  queue_ok (x :: q) <->
  queue_ok q /\ forall y, y ∈ q -> GetPriorityLevel y <= GetPriorityLevel x.
Proof.
  unfold queue_ok. split.
  - intros H. inversion H as [| ? ? Hq Hx]; subst. split; [assumption |].
    intros y Hy. apply EventComparer_false. rewrite Forall_forall in Hx. now apply Hx.
  - intros [Hq Hx]. constructor; [assumption |].
    apply Forall_forall. intros y Hy. apply EventComparer_false. now apply Hx.
Qed.

Lemma elem_of_pq_push e q y : y ∈ pq_push e q <-> y = e \/ y ∈ q.
Proof.
  induction q as [| x q IH]; cbn [pq_push].
  - rewrite list_elem_of_singleton. split; [now left | intros [H | H]; [assumption | inversion H]].
  - destruct (EventComparer x e).
    + apply elem_of_cons.
    + rewrite !elem_of_cons, IH. tauto.
Qed.

Lemma pq_push_ok e q : queue_ok q -> queue_ok (pq_push e q).
Proof.
  induction q as [| x q IH]; cbn [pq_push]; intros Hok.
  - apply queue_ok_cons. split; [constructor |]. intros y Hy. inversion Hy.
  - pose proof Hok as Hok'. apply queue_ok_cons in Hok' as [Hq Hx].
    destruct (EventComparer x e) eqn:E.
    + apply EventComparer_true in E. apply queue_ok_cons. split; [assumption |].
      intros y Hy. apply elem_of_cons in Hy as [-> | Hy]; [lia |].
      specialize (Hx y Hy). lia.
    + apply EventComparer_false in E. apply queue_ok_cons. split; [auto |].
      intros y Hy. apply elem_of_pq_push in Hy as [-> | Hy]; auto.
Qed.

Lemma pq_push_not_nil e q : pq_push e q <> [].
Proof. destruct q as [| x q]; cbn [pq_push]; [| destruct (EventComparer x e)]; discriminate. Qed.

Lemma pq_pop_ok q : queue_ok q -> queue_ok (pq_pop q).
Proof.
  destruct q as [| x q]; cbn; [auto |]. intros H. now apply queue_ok_cons in H as [H _].
Qed.

(** The top of a queue is one of its elements of greatest priority. *)
Lemma queue_ok_top x q :
  queue_ok (x :: q) ->
  x ∈ x :: q /\ forall y, y ∈ x :: q -> GetPriorityLevel y <= GetPriorityLevel x.
Proof.
  intros H. apply queue_ok_cons in H as [_ Hx]. split; [apply elem_of_cons; now left |].
  intros y Hy. apply elem_of_cons in Hy as [-> | Hy]; [lia | auto].
Qed.

(** A push that is not above the top leaves the top in place. *)
Lemma pq_push_below_top e x q :
  GetPriorityLevel e <= GetPriorityLevel x -> pq_push e (x :: q) = x :: pq_push e q.
Proof.
  intros Hle. cbn [pq_push].
  destruct (EventComparer x e) eqn:E; [| reflexivity].
  apply EventComparer_true in E. lia.
Qed.

(** A push above the top becomes the top. *)
Lemma pq_push_above_top e x q :
  GetPriorityLevel x < GetPriorityLevel e -> pq_push e (x :: q) = e :: x :: q.
Proof.
  intros Hlt. cbn [pq_push]. apply EventComparer_true in Hlt. now rewrite Hlt.
Qed.

End QueueFacts.

(** ** The operations of the manager *)

Section ManagerFacts.

Context {State : Type}.
Implicit Types m : EventManager State.
Implicit Types h : EventHandler State.
Implicit Types w : World State.

Lemma new_manager_ok : manager_ok (@new_manager State).
Proof.
  split; [constructor |]. intros k s Hs. cbn in Hs. rewrite lookup_empty in Hs. discriminate.
Qed.

Lemma AddHandler_ok k h m : manager_ok m -> manager_ok (AddHandler k h m).
Proof.
  intros [Hq Hs]. split; [assumption |]. intros k' s Hlook. cbn in Hlook.
  destruct (decide (k = k')) as [<- | Hne].
  - rewrite lookup_insert_eq in Hlook. injection Hlook as <-.
    apply set_insert_ok. destruct (m_handlers m !! k) as [s0 |] eqn:E; cbn.
    + now apply (Hs k).
    + apply set_ok_nil.
  - rewrite lookup_insert_ne in Hlook by assumption. now apply (Hs k').
Qed.

Lemma RemoveHandler_ok k h m : manager_ok m -> manager_ok (RemoveHandler k h m).
Proof.
  intros [Hq Hs]. unfold RemoveHandler.
  destruct (m_handlers m !! k) as [s0 |] eqn:E; [| now split].
  split; [assumption |]. intros k' s Hlook. cbn in Hlook.
  destruct (decide (k = k')) as [<- | Hne].
  - rewrite lookup_insert_eq in Hlook. injection Hlook as <-.
    apply set_erase_ok. now apply (Hs k).
  - rewrite lookup_insert_ne in Hlook by assumption. now apply (Hs k').
Qed.

Lemma PushEvent_ok e m : manager_ok m -> manager_ok (PushEvent e m).
Proof.
  intros [Hq Hs]. split; [now apply pq_push_ok | assumption].
Qed.

Lemma register_ok k hs : forall m, manager_ok m -> manager_ok (register k hs m).
Proof.
  unfold register. induction hs as [| h hs IH]; intros m Hok; cbn [fold_left]; [assumption |].
  apply IH. now apply AddHandler_ok.
Qed.

Lemma handlers_of_AddHandler k h m :
  handlers_of k (AddHandler k h m) = set_insert h (handlers_of k m).
Proof. unfold handlers_of. cbn. now rewrite lookup_insert_eq. Qed.

Lemma handlers_of_ok k m : manager_ok m -> set_ok (handlers_of k m).
Proof.
  intros [_ Hs]. unfold handlers_of.
  destruct (m_handlers m !! k) as [s |] eqn:E; cbn; [now apply (Hs k) | apply set_ok_nil].
Qed.

Lemma handlers_of_register k hs :
  forall m, handlers_of k (register k hs m) = fold_left (fun s h => set_insert h s) hs (handlers_of k m).
Proof.
  unfold register. induction hs as [| h hs IH]; intros m; cbn [fold_left]; [reflexivity |].
  now rewrite IH, handlers_of_AddHandler.
Qed.

Lemma push_all_facts pushed :
  forall m,
    m_handlers (push_all pushed m) = m_handlers m /\
    (m_eventQueue m <> [] -> m_eventQueue (push_all pushed m) <> []) /\
    (queue_ok (m_eventQueue m) -> queue_ok (m_eventQueue (push_all pushed m))) /\
    length (m_eventQueue (push_all pushed m)) = (length pushed + length (m_eventQueue m))%nat.
Proof.
  unfold push_all.
  induction pushed as [| e pushed IH]; intros m; cbn [fold_left]; [easy |].
  destruct (IH (PushEvent e m)) as (Hh & Hne & Hok & Hlen).
  repeat split.
  - now rewrite Hh.
  - intros _. apply Hne. cbn. apply pq_push_not_nil.
  - intros Hq. apply Hok. cbn. now apply pq_push_ok.
  - rewrite Hlen. cbn [m_eventQueue PushEvent length].
    assert (Hpush : forall q, length (pq_push e q) = S (length q)).
    { induction q as [| x q IHq]; cbn [pq_push]; [reflexivity |].
      destruct (EventComparer x e); cbn [length]; [reflexivity | now rewrite IHq]. }
    rewrite Hpush. lia.
Qed.

End ManagerFacts.

(** ** One iteration of the loop *)

Section IterationFacts.

Context {State : Type}.
Implicit Types m : EventManager State.
Implicit Types h : EventHandler State.
Implicit Types w : World State.

Lemma invoked_app (t1 t2 : list (Observation State)) :
  invoked (t1 ++ t2) = invoked t1 ++ invoked t2.
Proof. apply omap_app. Qed.

Lemma dispatched_app (t1 t2 : list (Observation State)) :
  dispatched (t1 ++ t2) = dispatched t1 ++ dispatched t2.
Proof. apply omap_app. Qed.

Lemma discarded_app (t1 t2 : list (Observation State)) :
  discarded (t1 ++ t2) = discarded t1 ++ discarded t2.
Proof. apply omap_app. Qed.

(** What one call of a handler changes. *)
Lemma invoke_facts w h :
  m_eventQueue (manager w) <> [] ->
  m_handlers (manager (invoke w h)) = m_handlers (manager w) /\
  m_eventQueue (manager (invoke w h)) <> [] /\
  (queue_ok (m_eventQueue (manager w)) -> queue_ok (m_eventQueue (manager (invoke w h)))) /\
  (exists event, trace (invoke w h) = trace w ++ [Invoke h event]).
Proof.
  intros Hne. unfold invoke.
  destruct (m_eventQueue (manager w)) as [| event q] eqn:Eq; [contradiction |].
  destruct (target h.2 event (captured w)) as [s pushed]. cbn [manager trace].
  destruct (push_all_facts pushed (manager w)) as (Hh & Hn & Hok & _).
  rewrite Eq in Hn, Hok.
  repeat split; [assumption | auto | assumption | now exists event].
Qed.

(** What the calls of all the handlers of a set change. *)
Lemma invoke_all_facts (hs : list (EventHandler State)) :
  forall w,
    m_eventQueue (manager w) <> [] ->
    let w' := fold_left invoke hs w in
    m_handlers (manager w') = m_handlers (manager w) /\
    m_eventQueue (manager w') <> [] /\
    (queue_ok (m_eventQueue (manager w)) -> queue_ok (m_eventQueue (manager w'))) /\
    invoked (trace w') = invoked (trace w) ++ hs /\
    dispatched (trace w') = dispatched (trace w) /\
    discarded (trace w') = discarded (trace w) /\
    (Forall dispatch_maximal (trace w) -> Forall dispatch_maximal (trace w')).
Proof.
  induction hs as [| h hs IH]; intros w Hne; cbn [fold_left].
  - repeat split; auto. now rewrite app_nil_r.
  - destruct (invoke_facts w h Hne) as (Hh & Hn & Hok & event & Ht).
    destruct (IH (invoke w h) Hn) as (Hh' & Hn' & Hok' & Hi & Hd & Hx & Hm).
    cbn zeta. repeat split.
    + now rewrite Hh'.
    + assumption.
    + auto.
    + rewrite Hi, Ht, invoked_app. cbn. now rewrite <- app_assoc.
    + rewrite Hd, Ht, dispatched_app. cbn. now rewrite app_nil_r.
    + rewrite Hx, Ht, discarded_app. cbn. now rewrite app_nil_r.
    + intros Hall. apply Hm. rewrite Ht. apply Forall_app. split; [assumption |].
      repeat constructor.
Qed.

Lemma invoke_all_trace (hs : list (EventHandler State)) :
  forall w,
    m_eventQueue (manager w) <> [] ->
    exists t, trace (fold_left invoke hs w) = trace w ++ t.
Proof.
  induction hs as [| h hs IH]; intros w Hne; cbn [fold_left].
  - exists []. now rewrite app_nil_r.
  - destruct (invoke_facts w h Hne) as (_ & Hn & _ & ev & Ht).
    destruct (IH _ Hn) as [t Htr]. exists (Invoke h ev :: t).
    rewrite Htr, Ht. now rewrite <- app_assoc.
Qed.

(** One iteration: the top is read, the handlers of its key are called in
    the order of their set, and the queue is popped. *)
Lemma iteration_facts w event rest :
  m_eventQueue (manager w) = event :: rest ->
  let hs := default [] (m_handlers (manager w) !! GetType event) in
  m_handlers (manager (iteration w)) = m_handlers (manager w) /\
  (queue_ok (m_eventQueue (manager w)) -> queue_ok (m_eventQueue (manager (iteration w)))) /\
  invoked (trace (iteration w)) = invoked (trace w) ++ hs /\
  dispatched (trace (iteration w)) = dispatched (trace w) ++ [event] /\
  (exists t, trace (iteration w) = trace w ++ Dispatch event (event :: rest) :: t) /\
  (queue_ok (m_eventQueue (manager w)) -> Forall dispatch_maximal (trace w) ->
   Forall dispatch_maximal (trace (iteration w))).
Proof.
  intros Eq. unfold iteration. rewrite Eq.
  set (w0 := observe (Dispatch event (event :: rest)) w).
  assert (Hne0 : m_eventQueue (manager w0) <> []) by (cbn; now rewrite Eq).
  set (w1 := match m_handlers (manager w0) !! GetType event with
             | Some handlers => fold_left invoke handlers w0
             | None => w0
             end).
  assert (H1 : m_handlers (manager w1) = m_handlers (manager w) /\
               m_eventQueue (manager w1) <> [] /\
               (queue_ok (m_eventQueue (manager w)) -> queue_ok (m_eventQueue (manager w1))) /\
               invoked (trace w1) =
                 invoked (trace w0) ++ default [] (m_handlers (manager w) !! GetType event) /\
               dispatched (trace w1) = dispatched (trace w0) /\
               (Forall dispatch_maximal (trace w0) -> Forall dispatch_maximal (trace w1)) /\
               (exists t, trace w1 = trace w0 ++ t)).
  { subst w1. change (m_handlers (manager w0)) with (m_handlers (manager w)).
    destruct (m_handlers (manager w) !! GetType event) as [hs |]; cbn [default].
    - destruct (invoke_all_facts hs w0 Hne0) as (Hh & Hn & Hok & Hi & Hd & _ & Hm).
      repeat split; auto. now apply invoke_all_trace.
    - repeat split; auto; [now rewrite app_nil_r | exists []; now rewrite app_nil_r]. }
  destruct H1 as (Hh & Hn & Hok & Hi & Hd & Hm & t & Ht).
  unfold pop. destruct (m_eventQueue (manager w1)) as [| top q1] eqn:E1; [contradiction |].
  cbn [manager trace m_handlers m_eventQueue pq_pop tail].
  repeat split.
  - assumption.
  - intros Hq. rewrite Eq in Hok. specialize (Hok Hq). now apply queue_ok_cons in Hok as [Hok _].
  - rewrite invoked_app, Hi. subst w0. cbn [observe trace]. rewrite invoked_app. cbn.
    now rewrite !app_nil_r.
  - rewrite dispatched_app, Hd. subst w0. cbn [observe trace]. rewrite dispatched_app. cbn.
    now rewrite !app_nil_r.
  - exists (t ++ [Discard top]). rewrite Ht. subst w0. cbn [observe trace].
    now rewrite <- !app_assoc.
  - intros Hq Hall. apply Forall_app. split; [| repeat constructor].
    apply Hm. subst w0. cbn [observe trace]. apply Forall_app. split; [assumption |].
    constructor; [| constructor]. cbn. now apply queue_ok_top.
Qed.

Lemma iteration_ok w : manager_ok (manager w) -> manager_ok (manager (iteration w)).
Proof.
  intros Hmok. destruct (m_eventQueue (manager w)) as [| event rest] eqn:Eq.
  - unfold iteration. now rewrite Eq.
  - destruct Hmok as [Hq Hs].
    destruct (iteration_facts w event rest Eq) as (Hh & Hok & _).
    split; [auto |]. intros k s. rewrite Hh. apply Hs.
Qed.

Lemma ProcessEvents_ok fuel :
  forall w w', manager_ok (manager w) -> ProcessEvents fuel w = Some w' -> manager_ok (manager w').
Proof.
  induction fuel as [| fuel IH]; intros w w' Hok Hrun; cbn [ProcessEvents] in Hrun;
    destruct (m_eventQueue (manager w)) as [| event rest] eqn:Eq; try congruence.
  eapply IH; [| eassumption]. now apply iteration_ok.
Qed.

(** Every manager the operations build satisfies the invariants. *)
Lemma reachable_ok m : reachable m -> manager_ok m.
Proof.
  induction 1 as [| k h m _ IH | k h m _ IH | e m _ IH | fuel w w' _ IH Hrun].
  - apply new_manager_ok.
  - now apply AddHandler_ok.
  - now apply RemoveHandler_ok.
  - now apply PushEvent_ok.
  - now apply (ProcessEvents_ok fuel w w').
Qed.

End IterationFacts.

(** ** Handlers that push nothing, and registration order *)

Section RunFacts.

Context {State : Type}.
Implicit Types m : EventManager State.
Implicit Types h : EventHandler State.
Implicit Types w : World State.

Lemma invoke_all_quiet (hs : list (EventHandler State)) :
  forall w,
    (forall h event st, h ∈ hs -> (target h.2 event st).2 = []) ->
    manager (fold_left invoke hs w) = manager w.
Proof.
  induction hs as [| h hs IH]; intros w Hq; cbn [fold_left]; [reflexivity |].
  rewrite IH by (intros; apply Hq; apply elem_of_cons; now right).
  unfold invoke. destruct (m_eventQueue (manager w)) as [| event q]; [reflexivity |].
  specialize (Hq h event (captured w) ltac:(apply elem_of_cons; now left)).
  destruct (target h.2 event (captured w)) as [s pushed]. cbn in Hq. subst pushed.
  reflexivity.
Qed.

Lemma iteration_quiet w event rest :
  quiet (manager w) ->
  m_eventQueue (manager w) = event :: rest ->
  manager (iteration w) =
    {| m_handlers := m_handlers (manager w); m_eventQueue := rest |}.
Proof.
  intros Hquiet Eq. unfold iteration. rewrite Eq.
  set (w0 := observe (Dispatch event (event :: rest)) w).
  assert (Hm : manager
                 match m_handlers (manager w0) !! GetType event with
                 | Some handlers => fold_left invoke handlers w0
                 | None => w0
                 end = manager w).
  { change (m_handlers (manager w0)) with (m_handlers (manager w)).
    destruct (m_handlers (manager w) !! GetType event) as [hs |] eqn:E; [| reflexivity].
    rewrite invoke_all_quiet; [reflexivity |].
    intros h ev st Hh. now apply (Hquiet (GetType event) hs). }
  unfold pop. rewrite Hm, Eq. reflexivity.
Qed.

(** Without pushes from the handlers, the loop returns after one iteration
    per queued event and dispatches the queue front to back. *)
Lemma ProcessEvents_quiet_returns (q : list Event) :
  forall fuel w,
    quiet (manager w) ->
    m_eventQueue (manager w) = q ->
    (length q <= fuel)%nat ->
    exists w',
      ProcessEvents fuel w = Some w' /\
      dispatched (trace w') = dispatched (trace w) ++ q.
Proof.
  induction q as [| event rest IH]; intros fuel w Hquiet Eq Hfuel.
  - exists w. split; [| now rewrite app_nil_r].
    destruct fuel; cbn [ProcessEvents]; now rewrite Eq.
  - destruct fuel as [| fuel]; [cbn in Hfuel; lia |].
    cbn [ProcessEvents]. rewrite Eq.
    pose proof (iteration_quiet w event rest Hquiet Eq) as Hm.
    destruct (iteration_facts w event rest Eq) as (_ & _ & _ & Hd & _).
    destruct (IH fuel (iteration w)) as (w' & Hrun & Hdw).
    + rewrite Hm. exact Hquiet.
    + now rewrite Hm.
    + cbn in Hfuel. lia.
    + exists w'. split; [assumption |]. rewrite Hdw, Hd. now rewrite <- app_assoc.
Qed.

Lemma handler_id_same_element a b :
  handler_id a = handler_id b <-> @same_element State a b.
Proof.
  unfold handler_id, same_element. split; [intros H; now injection H | intros [-> ->]; reflexivity].
Qed.

(** The set a batch of registrations yields does not depend on their
    order, as long as no two of them are the same element. *)
Lemma insert_all_permutation (hs hs' : list (EventHandler State)) :
  hs ≡ₚ hs' ->
  forall s,
    set_ok s -> NoDup (map handler_id hs) ->
    fold_left (fun s h => set_insert h s) hs s = fold_left (fun s h => set_insert h s) hs' s.
Proof.
  induction 1 as [| x l l' Hperm IH | x y l | l l' l'' Hp1 IH1 Hp2 IH2]; intros s Hok Hnd.
  - reflexivity.
  - cbn [fold_left]. apply IH; [now apply set_insert_ok |].
    cbn [map] in Hnd. now apply NoDup_cons in Hnd as [_ Hnd].
  - cbn [fold_left]. f_equal. apply set_insert_comm; [assumption |].
    cbn [map] in Hnd. apply NoDup_cons in Hnd as [Hy _].
    intros Hsame. apply Hy. apply elem_of_cons. left.
    now apply handler_id_same_element, same_element_sym.
  - rewrite IH1 by assumption. apply IH2; [assumption |].
    pose proof (Permutation_map handler_id Hp1) as Hpm. now rewrite <- Hpm.
Qed.

Lemma register_permutation k (hs hs' : list (EventHandler State)) m :
  manager_ok m -> hs ≡ₚ hs' -> NoDup (map handler_id hs) ->
  handlers_of k (register k hs m) = handlers_of k (register k hs' m).
Proof.
  intros Hok Hperm Hnd. rewrite !handlers_of_register.
  apply insert_all_permutation; [assumption | now apply handlers_of_ok | assumption].
Qed.

End RunFacts.

(** * Main results *)

(** ** Hashing *)

(** C5. [Murmur3Hash] is the one-shot Murmur3-32 function of the
    specification: little-endian 4-byte blocks mixed with C1, a rotation by
    15 and C2, xored into the hash, which is rotated by 13 and mapped to
    [hash * 5 + 0xe6546b64]; the tail bytes mixed alike without that last
    step; the length xored in and the avalanche finisher applied.  The
    result is a function of the bytes and the seed alone, and the empty
    input with seed 0 hashes to 0.  The buffer is shorter than 2^31 bytes,
    the range in which the [int] arithmetic on [nblocks] does not overflow. *)
Theorem Murmur3Hash_implements_murmur3_32 :
  (forall (key : list byte) (seed : Z),
      Z.of_nat (length key) < 2 ^ 31 ->
      Hash.Murmur3Hash key (Z.of_nat (length key)) seed = Murmur3Spec.murmur3_32 key seed) /\
  Hash.Murmur3Hash [] 0 0 = 0.
Proof.
  split; [| reflexivity].
  intros key seed Hlen. unfold Hash.Murmur3Hash, Murmur3Spec.murmur3_32.
  set (len := Z.of_nat (length key)) in *.
  assert (Hlen0 : 0 <= len) by (subst len; lia).
  pose proof (Z.div_mod len 4 ltac:(lia)) as Hdm.
  pose proof (Z.mod_pos_bound len 4 ltac:(lia)) as Hmod.
  assert (Hdiv : 0 <= len / 4 < 2 ^ 31) by (split; [apply Z.div_pos; lia | lia]).
  rewrite (int_small _ Hdiv).
  set (n := Z.to_nat (len / 4)).
  assert (Hn : Z.of_nat n = len / 4) by (subst n; lia).
  assert (Hbody := block_loop_body n [] key seed (len / 4)).
  cbn [app length] in Hbody. rewrite Hbody by (subst len; lia).
  rewrite (tail_switch_le_word key (len / 4) len _ (drop (4 * n) key)).
  - rewrite FMix_agrees. reflexivity.
  - rewrite length_drop. subst len. lia.
  - rewrite length_drop. f_equal. subst len. lia.
  - rewrite length_drop. subst len. lia.
  - change 3 with (Z.ones 2). rewrite Z.land_ones by lia.
    rewrite length_drop. change (2 ^ 2) with 4. subst len. lia.
Qed.

Lemma Murmur3Hash_implements_murmur3_32_witness :
  Z.of_nat (length (bytes_of "PlayerDied")) < 2 ^ 31 /\
  Hash.Murmur3Hash (bytes_of "PlayerDied") (Z.of_nat (length (bytes_of "PlayerDied"))) 0 =
    Murmur3Spec.murmur3_32 (bytes_of "PlayerDied") 0.
Proof.
  split; [reflexivity |].
  apply (proj1 Murmur3Hash_implements_murmur3_32 (bytes_of "PlayerDied") 0). reflexivity.
Defined.

(** Published Murmur3-32 test vectors. *)
Example Murmur3Hash_vectors :
  Hash.Murmur3Hash [] 0 1 = 0x514e28b7 /\
  Hash.Murmur3Hash [] 0 0xffffffff = 0x81f16f39 /\
  Hash.Murmur3Hash (bytes_of "test") 4 0 = 0xba6bd213 /\
  Hash.Murmur3Hash (bytes_of "aa") 2 0x9747b28c = 0x5d211726 /\
  Hash.Murmur3Hash (bytes_of "aaa") 3 0x9747b28c = 0x283e0130 /\
  Hash.Murmur3Hash (bytes_of "Hello, world!") 13 0x9747b28c = 0x24884cba /\
  Hash.Murmur3Hash (bytes_of "The quick brown fox jumps over the lazy dog") 43 0x9747b28c
    = 0x2fa826cd.
Proof. repeat split; vm_compute; reflexivity. Qed.

(** ** Payload components *)

Lemma attach_keeps (a : Attachment) (e : Event) (k : N) (c : Component) :
  payloads e !! k = Some c -> payloads (attach a e).2 !! k = Some c.
Proof.
  intros Hk. unfold attach, AddComponent.
  match goal with |- context [match ?slot with _ => _ end] => destruct slot eqn:E end;
    cbn; [assumption |].
  rewrite lookup_insert_ne; [assumption |]. intros Heq. subst k. congruence.
Qed.

Lemma attach_all_keeps (calls : list Attachment) :
  forall (e : Event) (k : N) (c : Component),
    payloads e !! k = Some c -> payloads (attach_all calls e) !! k = Some c.
Proof.
  unfold attach_all. induction calls as [| a calls IH]; intros e k c Hk; cbn [fold_left]; [assumption |].
  apply IH. now apply attach_keeps.
Qed.

(** C8. On an event that has no [T] attached, [AddComponent<T>] returns
    [true] and attaches the component; after that, and after any further
    calls of [AddComponent] for any types, [AddComponent<T>] returns [false],
    leaves the event as it is, and the instance attached first is still the
    one in the slot. *)
Theorem AddComponent_true_exactly_once (T : Type) `{PayloadComponent T}
    (construct : option EventIdentity -> T) (e : Event) :
  payloads e !! component_type T = None ->
  let first := AddComponent T construct e in
  first.1 = true /\
  GetComponent T first.2 = Some (MkComponent T (construct (Some (identity e)))) /\
  forall (later : list Attachment) (construct' : option EventIdentity -> T),
    let e' := attach_all later first.2 in
    AddComponent T construct' e' = (false, e') /\
    GetComponent T e' = GetComponent T first.2.
Proof.
  intros Hfree first.
  set (e1 := {| identity := identity e;
                payloads := <[component_type T :=
                                MkComponent T (construct (Some (identity e)))]>
                              (payloads e) |}).
  assert (Hfirst : first = (true, e1)).
  { subst first. unfold AddComponent. now rewrite Hfree. }
  rewrite Hfirst. cbn [fst snd].
  assert (Hslot : GetComponent T e1 = Some (MkComponent T (construct (Some (identity e))))).
  { unfold GetComponent. cbn. apply lookup_insert_eq. }
  split; [reflexivity |]. split; [exact Hslot |].
  intros later construct'. cbn zeta.
  pose proof (attach_all_keeps later _ _ _ Hslot) as Hkept.
  split.
  - unfold AddComponent. now rewrite Hkept.
  - unfold GetComponent at 1. now rewrite Hkept, Hslot.
Qed.

Lemma AddComponent_true_exactly_once_witness :
  payloads (plain_event 7 0) !! component_type PayloadTest = None /\
  (AddComponent PayloadTest Build_PayloadTest (plain_event 7 0)).1 = true /\
  (let e' := (AddComponent PayloadTest Build_PayloadTest (plain_event 7 0)).2 in
   AddComponent PayloadTest Build_PayloadTest e' = (false, e')).
Proof.
  split; [reflexivity |].
  destruct (AddComponent_true_exactly_once PayloadTest Build_PayloadTest (plain_event 7 0)
              eq_refl) as (Htrue & _ & Hlater).
  split; [exact Htrue |].
  exact (proj1 (Hlater [] Build_PayloadTest)).
Defined.

(** C9, as the code has it: [PayloadTest::ToString] returns, for every
    object and on every call, the fixed text "Event Payload Test" followed
    by a line feed. *)
Theorem PayloadTest_ToString_fixed (this : PayloadTest) :
  ToString this = String.append "Event Payload Test" (String "010"%char EmptyString).
Proof. reflexivity. Qed.

(** The text returned is not the bare "Event Payload Test". *)
Lemma PayloadTest_ToString_not_bare :
  ToString {| m_pOwner := None |} <> "Event Payload Test"%string.
Proof. discriminate. Qed.

(** Attaching the test payload twice, then reading it back. *)
Example attach_twice_then_describe :
  let first := AddComponent PayloadTest Build_PayloadTest (plain_event 7 0) in
  let second := AddComponent PayloadTest Build_PayloadTest first.2 in
  first.1 = true /\ second.1 = false /\
  describe <$> GetComponent PayloadTest second.2
    = Some (String.append "Event Payload Test" (String "010"%char EmptyString)).
Proof. vm_compute. repeat split. Qed.

(** ** Draining the queue *)

(** C1, at the input that breaks it.  One event [low] is queued; its
    handler pushes [high], of greater priority, the first time it runs.
    [pop()] then removes [high], which was never dispatched: the handler of
    [high] is never called, and [low], still queued, is dispatched a second
    time. *)
Theorem reentrant_push_dispatches_twice :
  option_map trace (ProcessEvents 2 Reentrant.start) =
    Some [Dispatch Reentrant.low [Reentrant.low];
          Invoke Reentrant.on_low Reentrant.low;
          Discard Reentrant.high;
          Dispatch Reentrant.low [Reentrant.low];
          Invoke Reentrant.on_low Reentrant.low;
          Discard Reentrant.low].
Proof. vm_compute. reflexivity. Qed.

(** C2. Whenever [ProcessEvents] returns, the queue is empty, whatever the
    handlers pushed on the way; and it does return, after one iteration per
    queued event, when no handler pushes. *)
Theorem queue_empty_after_ProcessEvents (State : Type) :
  (forall (fuel : nat) (w w' : World State),
      ProcessEvents fuel w = Some w' -> m_eventQueue (manager w') = []) /\
  (forall w : World State,
      quiet (manager w) ->
      exists w', ProcessEvents (length (m_eventQueue (manager w))) w = Some w').
Proof.
  split.
  - induction fuel as [| fuel IH]; intros w w' Hrun; cbn [ProcessEvents] in Hrun;
      destruct (m_eventQueue (manager w)) as [| event rest] eqn:Eq; try congruence.
    now apply (IH (iteration w)).
  - intros w Hquiet.
    destruct (ProcessEvents_quiet_returns (m_eventQueue (manager w))
                (length (m_eventQueue (manager w))) w Hquiet eq_refl (le_n _))
      as (w' & Hrun & _).
    now exists w'.
Qed.

Lemma queue_empty_after_ProcessEvents_witness :
  (exists w' : World bool,
      ProcessEvents 2 Reentrant.start = Some w' /\ m_eventQueue (manager w') = []) /\
  (let w : World unit := world (PushEvent (plain_event 1 5) new_manager) tt [] in
   quiet (manager w) /\
   exists w', ProcessEvents (length (m_eventQueue (manager w))) w = Some w').
Proof.
  destruct (queue_empty_after_ProcessEvents bool) as [Hempty _].
  destruct (queue_empty_after_ProcessEvents unit) as [_ Hreturns].
  split.
  - eexists. split; [vm_compute; reflexivity |].
    apply (Hempty 2%nat Reentrant.start). vm_compute. reflexivity.
  - intros w.
    assert (Hquiet : quiet (manager w)).
    { intros k s h event st Hlook. cbn in Hlook. rewrite lookup_empty in Hlook. discriminate. }
    split; [exact Hquiet | exact (Hreturns w Hquiet)].
Defined.

(** ** Pushes that stay below the dispatched event *)

Section BoundedPushes.

Context {State : Type}.
Implicit Types m : EventManager State.
Implicit Types h : EventHandler State.
Implicit Types w : World State.

Lemma push_all_below_top (pushed : list Event) :
  forall m x q,
    m_eventQueue m = x :: q ->
    (forall e, e ∈ pushed -> GetPriorityLevel e <= GetPriorityLevel x) ->
    exists q', m_eventQueue (push_all pushed m) = x :: q'.
Proof.
  unfold push_all.
  induction pushed as [| e pushed IH]; intros m x q Eq Hle; cbn [fold_left].
  - now exists q.
  - apply (IH (PushEvent e m) x (pq_push e q)).
    + cbn. rewrite Eq. apply pq_push_below_top. apply Hle. apply elem_of_cons. now left.
    + intros e' He'. apply Hle. apply elem_of_cons. now right.
Qed.

Lemma invoke_all_below_top (hs : list (EventHandler State)) :
  forall w x q,
    m_eventQueue (manager w) = x :: q ->
    (forall h, h ∈ hs -> pushes_at_most h (GetPriorityLevel x)) ->
    exists q',
      m_eventQueue (manager (fold_left invoke hs w)) = x :: q' /\
      trace (fold_left invoke hs w) = trace w ++ map (fun h => Invoke h x) hs.
Proof.
  induction hs as [| h hs IH]; intros w x q Eq Hle; cbn [fold_left map].
  - exists q. split; [assumption | now rewrite app_nil_r].
  - assert (Hstep : exists q1,
               m_eventQueue (manager (invoke w h)) = x :: q1 /\
               trace (invoke w h) = trace w ++ [Invoke h x]).
    { unfold invoke. rewrite Eq.
      pose proof (Hle h ltac:(apply elem_of_cons; now left) x (captured w)) as Hh.
      destruct (target h.2 x (captured w)) as [s pushed]. cbn [snd] in Hh. cbn [manager trace].
      destruct (push_all_below_top pushed (manager w) x q Eq Hh) as [q1 Hq1].
      now exists q1. }
    destruct Hstep as (q1 & Eq1 & Ht1).
    destruct (IH (invoke w h) x q1 Eq1) as (q' & Eq' & Ht').
    + intros h' Hh'. apply Hle. apply elem_of_cons. now right.
    + exists q'. split; [assumption |]. rewrite Ht', Ht1. now rewrite <- app_assoc.
Qed.

(** When no handler of the dispatched event pushes above it, the event
    every handler is given and the event [pop()] removes are the event that
    was dispatched. *)
Lemma iteration_discards_dispatched w event rest :
  m_eventQueue (manager w) = event :: rest ->
  (forall h, h ∈ handlers_of (GetType event) (manager w) ->
             pushes_at_most h (GetPriorityLevel event)) ->
  trace (iteration w) =
    trace w ++ Dispatch event (event :: rest)
      :: map (fun h => Invoke h event) (handlers_of (GetType event) (manager w))
      ++ [Discard event].
Proof.
  intros Eq Hle. unfold iteration. rewrite Eq.
  set (w0 := observe (Dispatch event (event :: rest)) w).
  assert (Eq0 : m_eventQueue (manager w0) = event :: rest) by exact Eq.
  change (m_handlers (manager w0)) with (m_handlers (manager w)).
  unfold handlers_of in Hle |- *.
  destruct (m_handlers (manager w) !! GetType event) as [hs |].
  - change (default [] (Some hs)) with hs in Hle |- *.
    destruct (invoke_all_below_top hs w0 event rest Eq0 Hle) as (q' & Eq' & Ht').
    unfold pop. rewrite Eq'. cbn [trace]. rewrite Ht'. subst w0. cbn [observe trace].
    now rewrite <- !app_assoc.
  - unfold pop. rewrite Eq0. subst w0. cbn [observe trace].
    now rewrite <- !app_assoc.
Qed.

End BoundedPushes.

(** ** Registration and removal *)

Section RegistryFacts.

Context {State : Type}.
Implicit Types m : EventManager State.
Implicit Types h x : EventHandler State.

Lemma elem_of_handlers_of k m x :
  x ∈ handlers_of k m -> exists s, m_handlers m !! k = Some s /\ x ∈ s.
Proof.
  unfold handlers_of. destruct (m_handlers m !! k) as [s |]; cbn; intros Hx.
  - now exists s.
  - inversion Hx.
Qed.

Lemma set_ok_precedes (s : list (EventHandler State)) :
  set_ok s -> StronglySorted precedes s.
Proof.
  induction s as [| x s IH]; intros Hok; [constructor |].
  apply set_ok_cons in Hok as [Hs Hx]. constructor; [auto |].
  now apply Forall_forall.
Qed.

Lemma AddHandler_same_noop k h h' m :
  manager_ok m -> h' ∈ handlers_of k m -> same_element h' h -> AddHandler k h m = m.
Proof.
  intros [_ Hsets] Hin Hsame.
  destruct (elem_of_handlers_of _ _ _ Hin) as (s & Hlook & Hs).
  unfold AddHandler. rewrite Hlook. change (default [] (Some s)) with s.
  rewrite (set_insert_same h s h') by eauto.
  rewrite insert_id by assumption. now destruct m.
Qed.

Lemma handlers_of_RemoveHandler k h m :
  handlers_of k (RemoveHandler k h m) = set_erase h (handlers_of k m).
Proof.
  unfold RemoveHandler, handlers_of.
  destruct (m_handlers m !! k) as [s |] eqn:E; cbn.
  - now rewrite lookup_insert_eq.
  - now rewrite E.
Qed.

Lemma handlers_of_RemoveHandler_ne k k' h m :
  k <> k' -> handlers_of k' (RemoveHandler k h m) = handlers_of k' m.
Proof.
  intros Hne. unfold RemoveHandler, handlers_of.
  destruct (m_handlers m !! k) as [s |] eqn:E; cbn; [| reflexivity].
  now rewrite lookup_insert_ne.
Qed.

Lemma RemoveHandler_unmatched k h m :
  (forall x, x ∈ handlers_of k m -> ~ same_element x h) -> RemoveHandler k h m = m.
Proof.
  intros Hnone. unfold RemoveHandler.
  destruct (m_handlers m !! k) as [s |] eqn:E; [| reflexivity].
  rewrite set_erase_unmatched.
  - rewrite insert_id by assumption. now destruct m.
  - intros x Hx. apply Hnone. unfold handlers_of. now rewrite E.
Qed.

Lemma iteration_invokes_set (w : World State) event rest :
  m_eventQueue (manager w) = event :: rest ->
  invoked (trace (iteration w)) =
    invoked (trace w) ++ handlers_of (GetType event) (manager w).
Proof.
  intros Eq. now destruct (iteration_facts w event rest Eq) as (_ & _ & Hi & _).
Qed.

End RegistryFacts.

(** ** Dispatches in which only the last handler pushes *)

Section LastPushes.

Context {State : Type}.
Implicit Types w : World State.
Implicit Types h : EventHandler State.

Lemma last_pushes_cons (event : Event) h h1 (hs : list (EventHandler State)) :
  last_pushes event (h :: h1 :: hs) -> silent_on event h /\ last_pushes event (h1 :: hs).
Proof.
  unfold last_pushes. change (removelast (h :: h1 :: hs)) with (h :: removelast (h1 :: hs)).
  intros Hlast. split.
  - apply Hlast. apply elem_of_cons. now left.
  - intros h' Hh'. apply Hlast. apply elem_of_cons. now right.
Qed.

Lemma quiet_last_pushes (m : EventManager State) (event : Event) :
  quiet m -> last_pushes event (handlers_of (GetType event) m).
Proof.
  intros Hquiet h Hh st. unfold handlers_of in Hh.
  destruct (m_handlers m !! GetType event) as [s |] eqn:E; cbn in Hh; [| inversion Hh].
  apply (Hquiet (GetType event) s h event st E).
  clear - Hh. induction s as [| x [| y s] IH]; cbn [removelast] in Hh; try (inversion Hh; fail).
  apply elem_of_cons in Hh as [-> | Hh]; apply elem_of_cons; [now left | right; auto].
Qed.

(** Every handler is called with the dispatched event, on the captured
    state the one before left; the pushes of the last one reach the queue. *)
Lemma invoke_all_last_pushes (hs : list (EventHandler State)) :
  forall w x q,
    m_eventQueue (manager w) = x :: q ->
    last_pushes x hs ->
    manager (fold_left invoke hs w) = push_all (call_all hs x (captured w)).2 (manager w) /\
    captured (fold_left invoke hs w) = (call_all hs x (captured w)).1 /\
    trace (fold_left invoke hs w) = trace w ++ map (fun h => Invoke h x) hs.
Proof.
  induction hs as [| h hs IH]; intros w x q Eq Hlast.
  - cbn. now rewrite app_nil_r.
  - destruct (target h.2 x (captured w)) as [s1 p1] eqn:Et.
    destruct hs as [| h1 hs].
    + cbn [fold_left call_all map]. unfold invoke. rewrite Eq, Et. cbn [manager captured trace].
      cbn [fst snd]. now rewrite app_nil_r.
    + apply last_pushes_cons in Hlast as [Hsilent Hlast].
      pose proof (Hsilent (captured w)) as Hp. rewrite Et in Hp. cbn [snd] in Hp. subst p1.
      assert (Hw1 : invoke w h =
                    {| manager := manager w; captured := s1;
                       trace := trace w ++ [Invoke h x] |}).
      { unfold invoke. now rewrite Eq, Et. }
      change (fold_left invoke (h :: h1 :: hs) w) with (fold_left invoke (h1 :: hs) (invoke w h)).
      destruct (IH (invoke w h) x q) as (Hm & Hc & Ht); [now rewrite Hw1 | assumption |].
      rewrite Hw1 in Hm, Hc, Ht. cbn [manager captured trace] in Hm, Hc, Ht.
      rewrite Hw1, Hm, Hc, Ht.
      change (call_all (h :: h1 :: hs) x (captured w))
        with (let '(s1, pushed1) := target h.2 x (captured w) in
              let '(s2, pushed2) := call_all (h1 :: hs) x s1 in (s2, pushed1 ++ pushed2)).
      rewrite Et. destruct (call_all (h1 :: hs) x s1) as [s2 p2]. cbn [fst snd app map].
      now rewrite <- app_assoc.
Qed.

(** One iteration of that kind. *)
Lemma iteration_last_pushes w (event : Event) (rest : list Event) :
  m_eventQueue (manager w) = event :: rest ->
  last_pushes event (handlers_of (GetType event) (manager w)) ->
  exists d q',
    m_eventQueue
      (push_all (call_all (handlers_of (GetType event) (manager w)) event (captured w)).2
         (manager w)) = d :: q' /\
    trace (iteration w) =
      trace w ++ Dispatch event (event :: rest)
        :: map (fun h => Invoke h event) (handlers_of (GetType event) (manager w))
        ++ [Discard d] /\
    captured (iteration w) =
      (call_all (handlers_of (GetType event) (manager w)) event (captured w)).1 /\
    manager (iteration w) = {| m_handlers := m_handlers (manager w); m_eventQueue := q' |}.
Proof.
  intros Eq Hlast. unfold iteration. rewrite Eq.
  set (w0 := observe (Dispatch event (event :: rest)) w).
  assert (Eq0 : m_eventQueue (manager w0) = event :: rest) by exact Eq.
  change (m_handlers (manager w0)) with (m_handlers (manager w)).
  set (hs := handlers_of (GetType event) (manager w)) in *.
  assert (Hall : manager (fold_left invoke hs w0) =
                   push_all (call_all hs event (captured w)).2 (manager w) /\
                 captured (fold_left invoke hs w0) = (call_all hs event (captured w)).1 /\
                 trace (fold_left invoke hs w0) =
                   (trace w ++ [Dispatch event (event :: rest)])
                     ++ map (fun h => Invoke h event) hs).
  { exact (invoke_all_last_pushes hs w0 event rest Eq0 Hlast). }
  assert (Hsame : match m_handlers (manager w) !! GetType event with
                  | Some handlers => fold_left invoke handlers w0
                  | None => w0
                  end = fold_left invoke hs w0).
  { subst hs. unfold handlers_of.
    now destruct (m_handlers (manager w) !! GetType event). }
  rewrite Hsame. destruct Hall as (Hm & Hc & Ht).
  destruct (push_all_facts (call_all hs event (captured w)).2 (manager w))
    as (Hh & Hne & _ & _).
  unfold pop. rewrite Hm.
  destruct (m_eventQueue (push_all (call_all hs event (captured w)).2 (manager w)))
    as [| d q'] eqn:Eq'.
  - exfalso. apply Hne; [now rewrite Eq | reflexivity].
  - exists d, q'. split; [reflexivity |]. cbn [manager captured trace pq_pop tail].
    rewrite Ht, Hc, Hh. split; [now rewrite <- !app_assoc |]. auto.
Qed.

Lemma call_all_quiet (hs : list (EventHandler State)) (event : Event) :
  forall s, (forall h, h ∈ hs -> silent_on event h) -> (call_all hs event s).2 = [].
Proof.
  induction hs as [| h hs IH]; intros s Hsilent; [reflexivity |].
  cbn [call_all].
  pose proof (Hsilent h ltac:(apply elem_of_cons; now left) s) as Hp.
  destruct (target h.2 event s) as [s1 p1]. cbn [snd] in Hp. subst p1.
  specialize (IH s1 ltac:(intros h' Hh'; apply Hsilent, elem_of_cons; now right)).
  destruct (call_all hs event s1) as [s2 p2]. cbn [snd] in IH |- *. now subst p2.
Qed.

(** One iteration with handlers that push nothing. *)
Lemma iteration_quiet_facts w (event : Event) (rest : list Event) :
  quiet (manager w) ->
  m_eventQueue (manager w) = event :: rest ->
  trace (iteration w) =
    trace w ++ Dispatch event (event :: rest)
      :: map (fun h => Invoke h event) (handlers_of (GetType event) (manager w))
      ++ [Discard event] /\
  captured (iteration w) =
    (call_all (handlers_of (GetType event) (manager w)) event (captured w)).1 /\
  manager (iteration w) = {| m_handlers := m_handlers (manager w); m_eventQueue := rest |}.
Proof.
  intros Hquiet Eq.
  destruct (iteration_last_pushes w event rest Eq (quiet_last_pushes _ event Hquiet))
    as (d & q' & Hq' & Ht & Hc & Hm).
  rewrite call_all_quiet in Hq'.
  - cbn in Hq'. rewrite Eq in Hq'. injection Hq' as <- <-. auto.
  - intros h Hh st. destruct (elem_of_handlers_of _ _ _ Hh) as (s & Hlook & Hs).
    exact (Hquiet (GetType event) s h event st Hlook Hs).
Qed.

End LastPushes.

(** C3. The handlers of the key of a dispatched event are called in the
    order of their set: priority descending, and among equal priorities the
    type descriptor of the callback ascending.  When only the handler called
    last pushes, every callback is run with the dispatched event on the
    captured state the callback before it left, in that order.  The set a
    batch of registrations yields is the same in whatever order they are
    made (no two of them being the same element); registered in any order,
    priorities 10, 5 and 1 run as 10, 5, 1. *)
Theorem handlers_invoked_by_descending_priority (State : Type) :
  (forall (w : World State) (event : Event) (rest : list Event),
      manager_ok (manager w) ->
      m_eventQueue (manager w) = event :: rest ->
      invoked (trace (iteration w)) =
        invoked (trace w) ++ handlers_of (GetType event) (manager w) /\
      StronglySorted precedes (handlers_of (GetType event) (manager w)) /\
      (last_pushes event (handlers_of (GetType event) (manager w)) ->
       captured (iteration w) =
         (call_all (handlers_of (GetType event) (manager w)) event (captured w)).1 /\
       exists d,
         trace (iteration w) =
           trace w ++ Dispatch event (event :: rest)
             :: map (fun h => Invoke h event) (handlers_of (GetType event) (manager w))
             ++ [Discard d])) /\
  (forall (k : Z) (hs hs' : list (EventHandler State)) (m : EventManager State),
      manager_ok m -> hs ≡ₚ hs' -> NoDup (map handler_id hs) ->
      handlers_of k (register k hs m) = handlers_of k (register k hs' m)) /\
  (forall (k : Z) (f g h : std_function State) (hs : list (EventHandler State)),
      hs ≡ₚ [(10, f); (5, g); (1, h)] ->
      handlers_of k (register k hs new_manager) = [(10, f); (5, g); (1, h)]).
Proof.
  split; [| split].
  - intros w event rest Hok Eq. split; [now apply (iteration_invokes_set w event rest) |].
    split; [now apply set_ok_precedes, handlers_of_ok |].
    intros Hlast.
    destruct (iteration_last_pushes w event rest Eq Hlast) as (d & q' & _ & Ht & Hc & _).
    split; [exact Hc | now exists d].
  - intros k hs hs' m. apply register_permutation.
  - intros k f g h hs Hperm.
    rewrite (register_permutation k hs [(10, f); (5, g); (1, h)] new_manager).
    + rewrite handlers_of_register. unfold handlers_of. cbn [new_manager m_handlers].
      rewrite lookup_empty. reflexivity.
    + apply new_manager_ok.
    + assumption.
    + pose proof (Permutation_map handler_id Hperm) as Hpm. rewrite Hpm. cbn [map handler_id fst snd].
      repeat (apply NoDup_cons; split); try apply NoDup_nil_2;
        rewrite ?elem_of_cons, ?elem_of_nil; unfold handler_id; cbn [fst snd];
        intros Hin; intuition congruence.
Qed.

Lemma handlers_invoked_by_descending_priority_witness :
  let hi : EventHandler nat :=
    (10, {| target_type := 3%N; target := fun _ n => (S n, []) |}) in
  let mid : EventHandler nat :=
    (5, {| target_type := 1%N; target := fun _ n => ((n * n)%nat, []) |}) in
  let lo : EventHandler nat :=
    (1, {| target_type := 2%N; target := fun _ n => ((2 * n)%nat, [plain_event 9 0]) |}) in
  let w := world (PushEvent (plain_event 4 0) (register 4 [lo; hi; mid] new_manager)) 3%nat [] in
  (manager_ok (manager w) /\
   last_pushes (plain_event 4 0) [hi; mid; lo] /\
   invoked (trace (iteration w)) = [hi; mid; lo] /\
   StronglySorted precedes [hi; mid; lo] /\
   captured (iteration w) = 32%nat) /\
  (handlers_of 4 (register 4 [lo; hi] new_manager)
     = handlers_of 4 (register 4 [hi; lo] new_manager)) /\
  (handlers_of 4 (register 4 [lo; hi; mid] new_manager) = [hi; mid; lo]).
Proof.
  intros hi mid lo w.
  destruct (handlers_invoked_by_descending_priority nat) as (Horder & Hperm & Hexample).
  assert (Hok : manager_ok (manager w)).
  { apply PushEvent_ok, register_ok, new_manager_ok. }
  assert (Hlast : last_pushes (plain_event 4 0) [hi; mid; lo]).
  { intros h Hh st. cbn [removelast] in Hh.
    apply elem_of_cons in Hh as [-> | Hh]; [reflexivity |].
    apply list_elem_of_singleton in Hh. subst h. reflexivity. }
  destruct (Horder w (plain_event 4 0) [] Hok eq_refl) as (Hinv & Hsorted & Hcalls).
  split; [| split].
  - split; [exact Hok |]. split; [exact Hlast |]. split; [exact Hinv |].
    split; [exact Hsorted |]. exact (proj1 (Hcalls Hlast)).
  - apply (Hperm 4 [lo; hi] [hi; lo] new_manager new_manager_ok).
    + apply perm_swap.
    + repeat (apply NoDup_cons; split); try apply NoDup_nil_2;
        rewrite ?elem_of_cons, ?elem_of_nil; intros Hin; intuition discriminate.
  - apply (Hexample 4 (hi.2) (mid.2) (lo.2) [lo; hi; mid]).
    apply (Permutation_cons_append [hi; mid] lo).
Defined.

(** C4. Each iteration of [ProcessEvents] dispatches the top of the queue,
    whose priority no queued event exceeds, and it is with that event that
    the handlers of its key are run (only the handler called last pushing);
    the top is maximal at every dispatch of a whole run.  An event of
    priority 10 pushed before one of priority 5 is dispatched first: its
    handlers have run, and it is discarded, before the handlers of the other
    run. *)
Theorem dispatch_takes_maximal_priority (State : Type) :
  (forall (w : World State) (event : Event) (rest : list Event),
      manager_ok (manager w) ->
      m_eventQueue (manager w) = event :: rest ->
      (exists t, trace (iteration w) = trace w ++ Dispatch event (event :: rest) :: t) /\
      (forall e, e ∈ event :: rest -> GetPriorityLevel e <= GetPriorityLevel event) /\
      (last_pushes event (handlers_of (GetType event) (manager w)) ->
       captured (iteration w) =
         (call_all (handlers_of (GetType event) (manager w)) event (captured w)).1 /\
       exists d,
         trace (iteration w) =
           trace w ++ Dispatch event (event :: rest)
             :: map (fun h => Invoke h event) (handlers_of (GetType event) (manager w))
             ++ [Discard d])) /\
  (forall (fuel : nat) (w w' : World State),
      manager_ok (manager w) ->
      Forall dispatch_maximal (trace w) ->
      ProcessEvents fuel w = Some w' ->
      Forall dispatch_maximal (trace w')) /\
  (forall (m : EventManager State) (s : State) (died moved : Event),
      manager_ok m ->
      m_eventQueue m = [] ->
      GetPriorityLevel died = 10 ->
      GetPriorityLevel moved = 5 ->
      let w := world (PushEvent moved (PushEvent died m)) s [] in
      (exists t, trace (iteration w) = Dispatch died [died; moved] :: t) /\
      (quiet m ->
       exists w',
         ProcessEvents 2 w = Some w' /\
         dispatched (trace w') = [died; moved] /\
         trace w' =
           Dispatch died [died; moved]
             :: map (fun h => Invoke h died) (handlers_of (GetType died) m)
             ++ Discard died :: Dispatch moved [moved]
             :: map (fun h => Invoke h moved) (handlers_of (GetType moved) m)
             ++ [Discard moved] /\
         captured w' =
           (call_all (handlers_of (GetType moved) m) moved
              (call_all (handlers_of (GetType died) m) died s).1).1)).
Proof.
  split; [| split].
  - intros w event rest [Hq _] Eq.
    destruct (iteration_facts w event rest Eq) as (_ & _ & _ & _ & Ht & _).
    split; [exact Ht |]. split; [rewrite Eq in Hq; now apply queue_ok_top |].
    intros Hlast.
    destruct (iteration_last_pushes w event rest Eq Hlast) as (d & q' & _ & Ht' & Hc & _).
    split; [exact Hc | now exists d].
  - induction fuel as [| fuel IH]; intros w w' Hok Hall Hrun; cbn [ProcessEvents] in Hrun;
      destruct (m_eventQueue (manager w)) as [| event rest] eqn:Eq; try congruence.
    apply (IH (iteration w)); [now apply iteration_ok | | assumption].
    destruct (iteration_facts w event rest Eq) as (_ & _ & _ & _ & _ & Hm).
    apply Hm; [apply Hok | assumption].
  - intros m s died moved Hok Hempty Hd Hm w.
    assert (Eq : m_eventQueue (manager w) = [died; moved]).
    { subst w. cbn. rewrite Hempty. cbn [pq_push]. unfold EventComparer. rewrite Hd, Hm.
      reflexivity. }
    split.
    + destruct (iteration_facts w died [moved] Eq) as (_ & _ & _ & _ & Ht & _).
      exact Ht.
    + intros Hquiet.
      destruct (iteration_quiet_facts w died [moved] Hquiet Eq) as (Ht1 & Hc1 & Hm1).
      assert (Eq1 : m_eventQueue (manager (iteration w)) = [moved]) by now rewrite Hm1.
      assert (Hquiet1 : quiet (manager (iteration w))) by (rewrite Hm1; exact Hquiet).
      destruct (iteration_quiet_facts (iteration w) moved [] Hquiet1 Eq1) as (Ht2 & Hc2 & Hm2).
      assert (Hsame : forall k, handlers_of k (manager (iteration w)) = handlers_of k m).
      { intros k. now rewrite Hm1. }
      rewrite Hsame in Ht2, Hc2. rewrite Ht1 in Ht2. rewrite Hc1 in Hc2.
      change (handlers_of (GetType died) (manager w)) with (handlers_of (GetType died) m)
        in Ht2, Hc2.
      change (trace w) with (@nil (Observation State)) in Ht2.
      change (captured w) with s in Hc2.
      exists (iteration (iteration w)). split; [| split; [| split]].
      * cbn [ProcessEvents]. rewrite Eq, Eq1, Hm2. reflexivity.
      * rewrite Ht2. cbn [app]. rewrite <- app_assoc. cbn [app].
        change (Dispatch died [died; moved]
                  :: map (fun h => Invoke h died) (handlers_of (GetType died) m)
                  ++ Discard died :: Dispatch moved [moved]
                  :: map (fun h => Invoke h moved) (handlers_of (GetType moved) m)
                  ++ [Discard moved])
          with ([Dispatch died [died; moved]]
                  ++ map (fun h => Invoke h died) (handlers_of (GetType died) m)
                  ++ [Discard died; Dispatch moved [moved]]
                  ++ map (fun h => Invoke h moved) (handlers_of (GetType moved) m)
                  ++ [Discard moved]).
        rewrite !dispatched_app.
        assert (Hnone : forall (x : Event) (hs : list (EventHandler State)),
                   dispatched (map (fun h => Invoke h x) hs) = []).
        { intros x hs. induction hs as [| h hs IHhs]; [reflexivity | exact IHhs]. }
        rewrite !Hnone. reflexivity.
      * rewrite Ht2. cbn [app]. now rewrite <- app_assoc.
      * exact Hc2.
Qed.

Lemma dispatch_takes_maximal_priority_witness :
  let died := plain_event 1 10 in
  let moved := plain_event 2 5 in
  let on_died : EventHandler nat :=
    (0, {| target_type := 1%N; target := fun _ n => (S n, []) |}) in
  let on_moved : EventHandler nat :=
    (7, {| target_type := 1%N; target := fun _ n => ((2 * n)%nat, []) |}) in
  let m := AddHandler 2 on_moved (AddHandler 1 on_died new_manager) in
  let w : World nat := world (PushEvent moved (PushEvent died m)) 3%nat [] in
  (manager_ok (manager w) /\ m_eventQueue (manager w) = [died; moved] /\ quiet m) /\
  ((exists t, trace (iteration w) = trace w ++ Dispatch died [died; moved] :: t) /\
   (forall e, e ∈ [died; moved] -> GetPriorityLevel e <= GetPriorityLevel died) /\
   captured (iteration w) = 4%nat) /\
  (exists w', ProcessEvents 2 w = Some w' /\ Forall dispatch_maximal (trace w')) /\
  (exists w',
      ProcessEvents 2 w = Some w' /\
      dispatched (trace w') = [died; moved] /\
      trace w' = [Dispatch died [died; moved]; Invoke on_died died; Discard died;
                  Dispatch moved [moved]; Invoke on_moved moved; Discard moved] /\
      captured w' = 8%nat).
Proof.
  intros died moved on_died on_moved m w.
  assert (Hmok : manager_ok m) by (apply AddHandler_ok, AddHandler_ok, new_manager_ok).
  assert (Hok : manager_ok (manager w)) by (apply PushEvent_ok, PushEvent_ok, Hmok).
  assert (Hquiet : quiet m).
  { intros k s h event st Hlook Hh. cbn in Hlook.
    destruct (decide (k = 2)) as [-> | Hne2].
    - rewrite lookup_insert_eq in Hlook. injection Hlook as <-.
      apply list_elem_of_singleton in Hh. now subst h.
    - rewrite lookup_insert_ne in Hlook by congruence.
      destruct (decide (k = 1)) as [-> | Hne1].
      + rewrite lookup_insert_eq in Hlook. injection Hlook as <-.
        apply list_elem_of_singleton in Hh. now subst h.
      + rewrite lookup_insert_ne, lookup_empty in Hlook by congruence. discriminate. }
  destruct (dispatch_takes_maximal_priority nat) as (Hstep & Hrun & Hscenario).
  split; [split; [exact Hok | split; [reflexivity | exact Hquiet]] |].
  split.
  - destruct (Hstep w died [moved] Hok eq_refl) as (Ht & Hmax & Hcalls).
    split; [exact Ht |]. split; [exact Hmax |].
    apply Hcalls. intros h Hh. inversion Hh.
  - split.
    + eexists. split; [vm_compute; reflexivity |].
      apply (Hrun 2%nat w); [exact Hok | constructor | vm_compute; reflexivity].
    + exact (proj2 (Hscenario m 3%nat died moved Hmok eq_refl eq_refl eq_refl) Hquiet).
Defined.

(** C6. [RemoveHandler] erases a registered handler only for the key given
    and only if priority and callback type descriptor both match; when no
    handler of the key matches, or the key has no set, the manager (registry
    and queue) is what it was, and the handlers registered for the key are
    still called by the next dispatch.  The function is total: nothing is
    raised. *)
Theorem RemoveHandler_requires_exact_match (State : Type) :
  (forall (m : EventManager State) (k k' : Z) (h h' : EventHandler State),
      h' ∈ handlers_of k' m ->
      h' ∉ handlers_of k' (RemoveHandler k h m) ->
      k' = k /\ h'.1 = h.1 /\ target_type h'.2 = target_type h.2) /\
  (forall (m : EventManager State) (k : Z) (h : EventHandler State),
      m_eventQueue (RemoveHandler k h m) = m_eventQueue m) /\
  (forall (m : EventManager State) (k : Z) (h : EventHandler State),
      (forall x, x ∈ handlers_of k m -> x.1 <> h.1 \/ target_type x.2 <> target_type h.2) ->
      RemoveHandler k h m = m) /\
  (forall (w : World State) (k : Z) (h h' : EventHandler State) (event : Event)
          (rest : list Event),
      (forall x, x ∈ handlers_of k (manager w) ->
                 x.1 <> h.1 \/ target_type x.2 <> target_type h.2) ->
      h' ∈ handlers_of k (manager w) ->
      m_eventQueue (manager w) = event :: rest ->
      GetType event = k ->
      exists hs,
        invoked (trace (iteration (world (RemoveHandler k h (manager w)) (captured w) (trace w))))
          = invoked (trace w) ++ hs /\
        h' ∈ hs).
Proof.
  assert (Hnone : forall (m : EventManager State) k h,
             (forall x, x ∈ handlers_of k m -> x.1 <> h.1 \/ target_type x.2 <> target_type h.2) ->
             RemoveHandler k h m = m).
  { intros m k h Hno. apply RemoveHandler_unmatched. intros x Hx [Hp Ht].
    destruct (Hno x Hx); contradiction. }
  split; [| split; [| split]].
  - intros m k k' h h' Hin Hgone.
    destruct (decide (k = k')) as [<- | Hne].
    + split; [reflexivity |]. rewrite handlers_of_RemoveHandler in Hgone.
      exact (set_erase_only_matching h _ h' Hin Hgone).
    + rewrite handlers_of_RemoveHandler_ne in Hgone by assumption. contradiction.
  - intros m k h. unfold RemoveHandler. now destruct (m_handlers m !! k).
  - exact Hnone.
  - intros w k h h' event rest Hno Hin Eq Hkey.
    rewrite (Hnone (manager w) k h Hno).
    exists (handlers_of k (manager w)). split; [| assumption].
    subst k. destruct w as [m s t]. apply (iteration_invokes_set _ event rest). exact Eq.
Qed.

Lemma RemoveHandler_requires_exact_match_witness :
  let registered : EventHandler unit := (5, silent 3%N) in
  let other : EventHandler unit := (6, silent 3%N) in
  let m := PushEvent (plain_event 4 0) (AddHandler 4 registered new_manager) in
  (RemoveHandler 4 other m = m) /\
  (RemoveHandler 9 registered m = m) /\
  ((registered ∈ handlers_of 4 m) /\
   (registered ∉ handlers_of 4 (RemoveHandler 4 registered m)) /\
   (4 = 4 /\ registered.1 = registered.1 /\
    target_type registered.2 = target_type registered.2)) /\
  (exists hs,
      invoked (trace (iteration (world (RemoveHandler 4 other m) tt []))) = hs /\
      registered ∈ hs).
Proof.
  intros registered other m.
  destruct (RemoveHandler_requires_exact_match unit) as (Honly & _ & Hnone & Hnext).
  assert (Hin : registered ∈ handlers_of 4 m) by (apply elem_of_cons; now left).
  assert (Hgone : registered ∉ handlers_of 4 (RemoveHandler 4 registered m)).
  { intros Habs. vm_compute in Habs. inversion Habs. }
  assert (Hno : forall x, x ∈ handlers_of 4 m ->
                          x.1 <> other.1 \/ target_type x.2 <> target_type other.2).
  { intros x Hx. apply list_elem_of_singleton in Hx. subst x. left. discriminate. }
  split; [exact (Hnone m 4 other Hno) |].
  split; [apply (Hnone m 9 registered); intros x Hx; inversion Hx |].
  split.
  - split; [exact Hin |]. split; [exact Hgone |].
    exact (Honly m 4 4 registered registered Hin Hgone).
  - exact (Hnext (world m tt []) 4 other registered (plain_event 4 0) [] Hno Hin eq_refl eq_refl).
Defined.

(** C7. Registering a handler whose priority and callback type descriptor
    equal those of a handler already in the set of the key leaves the
    manager as it was, and a dispatch of an event of that key then calls
    exactly one handler of that priority and type descriptor. *)
Theorem AddHandler_duplicate_is_noop (State : Type) (m : EventManager State) (k : Z)
    (h h' : EventHandler State) :
  manager_ok m ->
  h' ∈ handlers_of k m ->
  h'.1 = h.1 ->
  target_type h'.2 = target_type h.2 ->
  AddHandler k h m = m /\
  forall (s : State) (t : list (Observation State)) (event : Event) (rest : list Event),
    m_eventQueue m = event :: rest ->
    GetType event = k ->
    exists hs,
      invoked (trace (iteration (world (AddHandler k h m) s t))) = invoked t ++ hs /\
      length (List.filter (fun x => equivalent x h) hs) = 1%nat.
Proof.
  intros Hok Hin Hp Ht.
  assert (Hsame : same_element h' h) by (split; assumption).
  assert (Hnoop : AddHandler k h m = m) by (now apply (AddHandler_same_noop k h h')).
  split; [exact Hnoop |].
  intros s t event rest Eq Hkey. rewrite Hnoop.
  exists (handlers_of k m). split.
  - subst k. apply (iteration_invokes_set (world m s t) event rest). exact Eq.
  - apply (set_ok_one_match h _ h'); [now apply handlers_of_ok | assumption | assumption].
Qed.

Lemma AddHandler_duplicate_is_noop_witness :
  let registered : EventHandler unit := (5, silent 3%N) in
  let m := PushEvent (plain_event 4 0) (AddHandler 4 registered new_manager) in
  (AddHandler 4 registered m = m) /\
  (exists hs,
      invoked (trace (iteration (world (AddHandler 4 registered m) tt []))) = hs /\
      length (List.filter (fun x => equivalent x registered) hs) = 1%nat).
Proof.
  intros registered m.
  assert (Hok : manager_ok m) by (apply PushEvent_ok, AddHandler_ok, new_manager_ok).
  assert (Hin : registered ∈ handlers_of 4 m) by (apply elem_of_cons; now left).
  destruct (AddHandler_duplicate_is_noop unit m 4 registered registered Hok Hin eq_refl eq_refl)
    as [Hnoop Hnext].
  split; [exact Hnoop |].
  exact (Hnext tt [] (plain_event 4 0) [] eq_refl eq_refl).
Defined.

(** C10. Inside the registry a handler is its priority and the type
    descriptor of its callback; the callback's value plays no part.  With a
    handler registered, adding one of the same priority and callback type
    but another callback changes nothing, and removing with such a handler
    erases the registered one and no other. *)
Theorem registry_identity_ignores_callback_value (State : Type) :
  (forall a b : EventHandler State,
      equivalent a b = true <-> a.1 = b.1 /\ target_type a.2 = target_type b.2) /\
  (forall (m : EventManager State) (k p : Z) (ty : type_info)
          (f g : Event -> State -> State * list Event),
      manager_ok m ->
      (p, {| target_type := ty; target := f |}) ∈ handlers_of k m ->
      AddHandler k (p, {| target_type := ty; target := g |}) m = m /\
      ((p, {| target_type := ty; target := f |})
         ∉ handlers_of k (RemoveHandler k (p, {| target_type := ty; target := g |}) m)) /\
      forall x,
        x ∈ handlers_of k (RemoveHandler k (p, {| target_type := ty; target := g |}) m) <->
        x ∈ handlers_of k m /\ ~ (x.1 = p /\ target_type x.2 = ty)).
Proof.
  split.
  - intros a b. apply equivalent_same_element.
  - intros m k p ty f g Hok Hin.
    assert (Hsame : same_element (p, {| target_type := ty; target := f |})
                                 (p, {| target_type := ty; target := g |}))
      by (split; reflexivity).
    assert (Herase : forall x,
               x ∈ handlers_of k (RemoveHandler k (p, {| target_type := ty; target := g |}) m) <->
               x ∈ handlers_of k m /\ ~ (x.1 = p /\ target_type x.2 = ty)).
    { intros x. rewrite handlers_of_RemoveHandler.
      apply elem_of_set_erase_iff. now apply handlers_of_ok. }
    split; [now apply (AddHandler_same_noop k _ (p, {| target_type := ty; target := f |})) |].
    split; [| exact Herase].
    intros Habs. apply Herase in Habs as [_ Hdiff]. apply Hdiff. split; reflexivity.
Qed.

Lemma registry_identity_ignores_callback_value_witness :
  let registered : EventHandler unit := (5, {| target_type := 3%N; target := fun _ s => (s, []) |}) in
  let lookalike : EventHandler unit :=
    (5, {| target_type := 3%N; target := fun _ s => (s, [plain_event 0 0]) |}) in
  let m := AddHandler 4 registered new_manager in
  (manager_ok m /\ registered ∈ handlers_of 4 m) /\
  (AddHandler 4 lookalike m = m) /\
  (registered ∉ handlers_of 4 (RemoveHandler 4 lookalike m)).
Proof.
  intros registered lookalike m.
  assert (Hok : manager_ok m) by (apply AddHandler_ok, new_manager_ok).
  assert (Hin : registered ∈ handlers_of 4 m) by (apply elem_of_cons; now left).
  destruct (proj2 (registry_identity_ignores_callback_value unit) m 4 5 3%N
              (fun _ s => (s, [])) (fun _ s => (s, [plain_event 0 0])) Hok Hin)
    as (Hadd & Hgone & _).
  split; [split; [exact Hok | exact Hin] |].
  split; [exact Hadd | exact Hgone].
Defined.

(** * Further properties *)

(** ** Bits of 32-bit words *)

Section WordFacts.

Lemma testbit_above (a n i : Z) : 0 <= a < 2 ^ n -> n <= i -> Z.testbit a i = false.
Proof.
  intros Ha Hi. destruct (Z.lt_ge_cases n 0) as [Hneg | Hn].
  - rewrite Z.pow_neg_r in Ha by assumption. lia.
  - rewrite <- (Z.mod_small a (2 ^ n)) by assumption.
    apply Z.mod_pow2_bits_high. lia.
Qed.

Lemma range_of_bits (a n : Z) :
  0 <= n -> (forall i, n <= i -> Z.testbit a i = false) -> 0 <= a < 2 ^ n.
Proof.
  intros Hn Hhigh.
  assert (Ha : a = a mod 2 ^ n).
  { apply Z.bits_inj'. intros i Hi. destruct (Z.lt_ge_cases i n) as [Hlt | Hge].
    - now rewrite Z.mod_pow2_bits_low.
    - rewrite Z.mod_pow2_bits_high by lia. apply Hhigh. lia. }
  rewrite Ha. apply Z.mod_pos_bound. apply Z.pow_pos_nonneg; lia.
Qed.

Lemma lxor_range (a b n : Z) :
  0 <= n -> 0 <= a < 2 ^ n -> 0 <= b < 2 ^ n -> 0 <= Z.lxor a b < 2 ^ n.
Proof.
  intros Hn Ha Hb. apply range_of_bits; [assumption |].
  intros i Hi. rewrite Z.lxor_spec, (testbit_above a n), (testbit_above b n) by assumption.
  reflexivity.
Qed.

Lemma lor_range (a b n : Z) :
  0 <= n -> 0 <= a < 2 ^ n -> 0 <= b < 2 ^ n -> 0 <= Z.lor a b < 2 ^ n.
Proof.
  intros Hn Ha Hb. apply range_of_bits; [assumption |].
  intros i Hi. rewrite Z.lor_spec, (testbit_above a n), (testbit_above b n) by assumption.
  reflexivity.
Qed.

Lemma shiftr_range (a k n : Z) : 0 <= k -> 0 <= a < 2 ^ n -> 0 <= Z.shiftr a k < 2 ^ n.
Proof.
  intros Hk Ha. rewrite Z.shiftr_div_pow2 by assumption.
  assert (Hp : 0 < 2 ^ k) by (apply Z.pow_pos_nonneg; lia).
  split; [apply Z.div_pos; lia |].
  apply Z.le_lt_trans with a; [| lia]. apply Z.div_le_upper_bound; [assumption |]. nia.
Qed.

Lemma uint32_t_range (x : Z) : 0 <= uint32_t x < 2 ^ 32.
Proof. unfold uint32_t. apply Z.mod_pos_bound. lia. Qed.

Lemma uint32_t_small (x : Z) : 0 <= x < 2 ^ 32 -> uint32_t x = x.
Proof. intros Hx. unfold uint32_t. now apply Z.mod_small. Qed.

Lemma lxor_cancel_r (a b k : Z) : Z.lxor a k = Z.lxor b k -> a = b.
Proof.
  intros H. apply (f_equal (fun x => Z.lxor x k)) in H.
  now rewrite !Z.lxor_assoc, Z.lxor_nilpotent, !Z.lxor_0_r in H.
Qed.

(** Multiplication by a unit of the ring of 32-bit words loses nothing. *)
Lemma mul_unit_injective (c c' a b : Z) :
  (c * c') mod 2 ^ 32 = 1 ->
  0 <= a < 2 ^ 32 -> 0 <= b < 2 ^ 32 ->
  uint32_t (a * c) = uint32_t (b * c) -> a = b.
Proof.
  unfold uint32_t. intros Hunit Ha Hb Heq.
  assert (Hback : forall x, 0 <= x < 2 ^ 32 -> ((x * c) mod 2 ^ 32 * c') mod 2 ^ 32 = x).
  { intros x Hx. rewrite Z.mul_mod_idemp_l by lia. rewrite <- Z.mul_assoc.
    rewrite <- Z.mul_mod_idemp_r by lia. rewrite Hunit, Z.mul_1_r. now apply Z.mod_small. }
  rewrite <- (Hback a Ha), <- (Hback b Hb). now rewrite Heq.
Qed.

End WordFacts.

(** ** The rotation macro *)

Section RotateFacts.

Import Hash.

Lemma rotate_testbit (x r i : Z) :
  0 <= x < 2 ^ 32 -> 0 < r < 32 -> 0 <= i ->
  Z.testbit (CIRCULAR_SHIFT_LEFT_32_BITS x r) i =
    if i <? r then Z.testbit x (i + 32 - r)
    else if i <? 32 then Z.testbit x (i - r) else false.
Proof.
  intros Hx Hr Hi. unfold CIRCULAR_SHIFT_LEFT_32_BITS, uint32_t.
  rewrite Z.lor_spec, Z.shiftr_spec by assumption.
  destruct (Z.ltb_spec i r) as [Hlt | Hge].
  - rewrite Z.mod_pow2_bits_low by lia. rewrite Z.shiftl_spec by assumption.
    rewrite Z.testbit_neg_r by lia. cbn [orb]. f_equal. lia.
  - destruct (Z.ltb_spec i 32) as [Hlt | Hhigh].
    + rewrite Z.mod_pow2_bits_low by lia. rewrite Z.shiftl_spec by assumption.
      rewrite (testbit_above x 32 (i + (32 - r))) by lia. apply orb_false_r.
    + rewrite Z.mod_pow2_bits_high by lia.
      rewrite (testbit_above x 32 (i + (32 - r))) by lia. reflexivity.
Qed.

Lemma rotate_range (x r : Z) :
  0 <= x < 2 ^ 32 -> 0 < r < 32 -> 0 <= CIRCULAR_SHIFT_LEFT_32_BITS x r < 2 ^ 32.
Proof.
  intros Hx Hr. apply range_of_bits; [lia |]. intros i Hi.
  rewrite rotate_testbit by lia.
  destruct (Z.ltb_spec i r); [lia |]. destruct (Z.ltb_spec i 32); [lia | reflexivity].
Qed.

Lemma rotate_back (x r : Z) :
  0 <= x < 2 ^ 32 -> 0 < r < 32 ->
  CIRCULAR_SHIFT_LEFT_32_BITS (CIRCULAR_SHIFT_LEFT_32_BITS x r) (32 - r) = x.
Proof.
  intros Hx Hr. apply Z.bits_inj'. intros i Hi.
  rewrite rotate_testbit by (try apply rotate_range; lia).
  destruct (Z.ltb_spec i (32 - r)) as [Hlt | Hge].
  - rewrite rotate_testbit by lia.
    destruct (Z.ltb_spec (i + 32 - (32 - r)) r); [lia |].
    destruct (Z.ltb_spec (i + 32 - (32 - r)) 32); [| lia]. f_equal. lia.
  - destruct (Z.ltb_spec i 32) as [Hlt | Hhigh].
    + rewrite rotate_testbit by lia.
      destruct (Z.ltb_spec (i - (32 - r)) r); [| lia]. f_equal. lia.
    + symmetry. now apply (testbit_above x 32).
Qed.

Lemma rotate_injective (x y r : Z) :
  0 <= x < 2 ^ 32 -> 0 <= y < 2 ^ 32 -> 0 < r < 32 ->
  CIRCULAR_SHIFT_LEFT_32_BITS x r = CIRCULAR_SHIFT_LEFT_32_BITS y r -> x = y.
Proof.
  intros Hx Hy Hr Heq.
  rewrite <- (rotate_back x r), <- (rotate_back y r) by assumption. now rewrite Heq.
Qed.

End RotateFacts.

(** ** The finisher *)

Section FMixFacts.

Import Hash.

Lemma xorshift16_back (x : Z) :
  0 <= x < 2 ^ 32 ->
  Z.lxor (Z.lxor x (Z.shiftr x 16)) (Z.shiftr (Z.lxor x (Z.shiftr x 16)) 16) = x.
Proof.
  intros Hx. rewrite Z.shiftr_lxor, Z.shiftr_shiftr by lia.
  change (16 + 16) with 32. rewrite (Z.shiftr_div_pow2 x 32), Z.div_small, Z.lxor_0_r by lia.
  now rewrite Z.lxor_assoc, Z.lxor_nilpotent, Z.lxor_0_r.
Qed.

Lemma xorshift13_back (x : Z) :
  0 <= x < 2 ^ 32 ->
  let y := Z.lxor x (Z.shiftr x 13) in
  Z.lxor (Z.lxor y (Z.shiftr y 13)) (Z.shiftr y 26) = x.
Proof.
  intros Hx y. subst y. rewrite !Z.shiftr_lxor, !Z.shiftr_shiftr by lia.
  change (13 + 13) with 26. change (13 + 26) with 39.
  rewrite (Z.shiftr_div_pow2 x 39), Z.div_small, Z.lxor_0_r by lia.
  apply Z.bits_inj'. intros i Hi. rewrite !Z.lxor_spec.
  destruct (Z.testbit x i), (Z.testbit (Z.shiftr x 13) i), (Z.testbit (Z.shiftr x 26) i);
    reflexivity.
Qed.

Lemma xorshift16_injective (x y : Z) :
  0 <= x < 2 ^ 32 -> 0 <= y < 2 ^ 32 ->
  Z.lxor x (Z.shiftr x 16) = Z.lxor y (Z.shiftr y 16) -> x = y.
Proof.
  intros Hx Hy Heq. rewrite <- (xorshift16_back x Hx), <- (xorshift16_back y Hy).
  now rewrite Heq.
Qed.

Lemma xorshift13_injective (x y : Z) :
  0 <= x < 2 ^ 32 -> 0 <= y < 2 ^ 32 ->
  Z.lxor x (Z.shiftr x 13) = Z.lxor y (Z.shiftr y 13) -> x = y.
Proof.
  intros Hx Hy Heq.
  rewrite <- (xorshift13_back x Hx), <- (xorshift13_back y Hy). cbv zeta.
  now rewrite Heq.
Qed.

Lemma xorshift_range (x k : Z) :
  0 <= k -> 0 <= x < 2 ^ 32 -> 0 <= Z.lxor x (Z.shiftr x k) < 2 ^ 32.
Proof.
  intros Hk Hx. apply lxor_range; [lia | assumption | now apply shiftr_range].
Qed.

Lemma FMix_range (h : Z) : 0 <= FMix h < 2 ^ 32.
Proof. unfold FMix. apply xorshift_range; [lia | apply uint32_t_range]. Qed.

Lemma FMix_injective_on_words (a b : Z) :
  0 <= a < 2 ^ 32 -> 0 <= b < 2 ^ 32 -> FMix a = FMix b -> a = b.
Proof.
  intros Ha Hb Heq. unfold FMix in Heq.
  apply xorshift16_injective in Heq; try apply uint32_t_range.
  apply (mul_unit_injective _ 0x7ed1b41d) in Heq;
    [| reflexivity | apply xorshift_range; [lia | apply uint32_t_range] ..].
  apply xorshift13_injective in Heq; try apply uint32_t_range.
  apply (mul_unit_injective _ 0xa5cb9243) in Heq;
    [| reflexivity | apply xorshift_range; [lia | assumption] ..].
  now apply xorshift16_injective in Heq.
Qed.

End FMixFacts.

(** ** The mixing steps of the algorithm *)

Section MixFacts.

Import Murmur3Spec.

Lemma rotl32_range (x r : Z) : 0 <= x < 2 ^ 32 -> 0 < r < 32 -> 0 <= rotl32 x r < 2 ^ 32.
Proof. apply rotate_range. Qed.

Lemma rotl32_injective (x y r : Z) :
  0 <= x < 2 ^ 32 -> 0 <= y < 2 ^ 32 -> 0 < r < 32 -> rotl32 x r = rotl32 y r -> x = y.
Proof. apply rotate_injective. Qed.

Lemma mix_word_range (k : Z) : 0 <= mix_word k < 2 ^ 32.
Proof. unfold mix_word. apply Z.mod_pos_bound. lia. Qed.

Lemma mix_word_injective (k k' : Z) :
  0 <= k < 2 ^ 32 -> 0 <= k' < 2 ^ 32 -> mix_word k = mix_word k' -> k = k'.
Proof.
  intros Hk Hk' Heq. unfold mix_word in Heq.
  apply (mul_unit_injective 0x1b873593 0x56ed309b) in Heq;
    [| reflexivity | apply rotl32_range; [apply Z.mod_pos_bound |]; lia ..].
  apply rotl32_injective in Heq; [| apply Z.mod_pos_bound; lia .. | lia].
  now apply (mul_unit_injective 0xcc9e2d51 0xdee13bb1) in Heq.
Qed.

Lemma mix_block_range (h k : Z) : 0 <= mix_block h k < 2 ^ 32.
Proof. unfold mix_block. apply Z.mod_pos_bound. lia. Qed.

Lemma affine_injective (a b : Z) :
  0 <= a < 2 ^ 32 -> 0 <= b < 2 ^ 32 ->
  (a * 5 + 0xe6546b64) mod 2 ^ 32 = (b * 5 + 0xe6546b64) mod 2 ^ 32 -> a = b.
Proof.
  intros Ha Hb Heq.
  apply (mul_unit_injective 5 0xcccccccd); [reflexivity | assumption | assumption |].
  unfold uint32_t.
  replace (a * 5) with (a * 5 + 0xe6546b64 - 0xe6546b64) by lia.
  replace (b * 5) with (b * 5 + 0xe6546b64 - 0xe6546b64) by lia.
  rewrite (Zminus_mod (a * 5 + 0xe6546b64)), (Zminus_mod (b * 5 + 0xe6546b64)).
  now rewrite Heq.
Qed.

Lemma mix_block_injective_state (h h' k : Z) :
  0 <= h < 2 ^ 32 -> 0 <= h' < 2 ^ 32 ->
  mix_block h k = mix_block h' k -> h = h'.
Proof.
  intros Hh Hh' Heq. unfold mix_block in Heq.
  assert (Hr : forall x, 0 <= x < 2 ^ 32 -> 0 <= Z.lxor x (mix_word k) < 2 ^ 32).
  { intros x Hx. apply lxor_range; [lia | assumption | apply mix_word_range]. }
  apply affine_injective in Heq; [| apply rotl32_range; [apply Hr |]; lia ..].
  apply rotl32_injective in Heq; [| apply Hr; assumption .. | lia].
  now apply lxor_cancel_r in Heq.
Qed.

Lemma mix_block_injective_word (h k k' : Z) :
  0 <= h < 2 ^ 32 -> 0 <= k < 2 ^ 32 -> 0 <= k' < 2 ^ 32 ->
  mix_block h k = mix_block h k' -> k = k'.
Proof.
  intros Hh Hk Hk' Heq. unfold mix_block in Heq.
  assert (Hr : forall x, 0 <= Z.lxor h (mix_word x) < 2 ^ 32).
  { intros x. apply lxor_range; [lia | assumption | apply mix_word_range]. }
  apply affine_injective in Heq; [| apply rotl32_range; [apply Hr |]; lia ..].
  apply rotl32_injective in Heq; [| apply Hr .. | lia].
  rewrite (Z.lxor_comm h), (Z.lxor_comm h (mix_word k')) in Heq.
  apply lxor_cancel_r in Heq. now apply mix_word_injective.
Qed.

End MixFacts.

(** ** Words of bytes and the state after a prefix *)

Section BodyFacts.

Import Hash Murmur3Spec.

Lemma uint8_t_injective (b b' : byte) : uint8_t b = uint8_t b' -> b = b'.
Proof.
  unfold uint8_t. intros Heq. apply N2Z.inj in Heq.
  pose proof (Byte.of_to_N b) as Hb. rewrite Heq, Byte.of_to_N in Hb. congruence.
Qed.

Lemma lor_shiftl_low (a c : Z) :
  0 <= a < 2 ^ 8 -> (Z.lor a (Z.shiftl c 8)) mod 2 ^ 8 = a.
Proof.
  intros Ha. apply Z.bits_inj'. intros i Hi.
  destruct (Z.lt_ge_cases i 8) as [Hlt | Hge].
  - rewrite Z.mod_pow2_bits_low, Z.lor_spec, Z.shiftl_spec_low by lia. apply orb_false_r.
  - rewrite Z.mod_pow2_bits_high by lia. symmetry. now apply (testbit_above a 8).
Qed.

Lemma lor_shiftl_high (a c : Z) :
  0 <= a < 2 ^ 8 -> Z.shiftr (Z.lor a (Z.shiftl c 8)) 8 = c.
Proof.
  intros Ha. apply Z.bits_inj'. intros i Hi.
  rewrite Z.shiftr_spec, Z.lor_spec, Z.shiftl_spec by lia.
  rewrite (testbit_above a 8) by lia. cbn [orb]. f_equal. lia.
Qed.

Lemma le_word_range (bs : list byte) :
  0 <= le_word bs < 2 ^ (8 * Z.of_nat (length bs)).
Proof.
  induction bs as [| b bs IH]; cbn [le_word length]; [cbn; lia |].
  assert (Hp : 2 ^ (8 * Z.of_nat (S (length bs))) = 2 ^ 8 * 2 ^ (8 * Z.of_nat (length bs))).
  { rewrite <- Z.pow_add_r by lia. f_equal. lia. }
  pose proof (uint8_t_range b) as Hb.
  assert (Hpos : 0 < 2 ^ (8 * Z.of_nat (length bs))) by (apply Z.pow_pos_nonneg; lia).
  apply lor_range; [lia | rewrite Hp; nia |].
  rewrite Z.shiftl_mul_pow2 by lia. rewrite Hp. nia.
Qed.

Lemma le_word_injective (bs : list byte) :
  forall bs', length bs = length bs' -> le_word bs = le_word bs' -> bs = bs'.
Proof.
  induction bs as [| b bs IH]; intros [| b' bs'] Hlen Heq; cbn [length] in Hlen;
    try discriminate; [reflexivity |].
  cbn [le_word] in Heq.
  pose proof (lor_shiftl_low _ (le_word bs) (uint8_t_range b)) as Hlow.
  pose proof (lor_shiftl_high _ (le_word bs) (uint8_t_range b)) as Hhigh.
  rewrite Heq in Hlow, Hhigh.
  rewrite (lor_shiftl_low _ _ (uint8_t_range b')) in Hlow.
  rewrite (lor_shiftl_high _ _ (uint8_t_range b')) in Hhigh.
  f_equal; [now apply uint8_t_injective | apply IH; [lia | congruence]].
Qed.

(** Induction along the blocks of a buffer. *)
Lemma blocks_ind (P : list byte -> Prop) :
  (forall t, (length t < 4)%nat -> P t) ->
  (forall b0 b1 b2 b3 rest, P rest -> P (b0 :: b1 :: b2 :: b3 :: rest)) ->
  forall bs, P bs.
Proof.
  intros Htail Hblock bs.
  assert (H : forall n bs, (length bs <= n)%nat -> P bs).
  { induction n as [| n IH]; intros l Hl.
    - apply Htail. lia.
    - destruct l as [| b0 [| b1 [| b2 [| b3 rest]]]];
        try (apply Htail; cbn [length]; lia).
      apply Hblock. apply IH. cbn [length] in Hl. lia. }
  now apply (H (length bs)).
Qed.

Lemma body_tail (t : list byte) (h : Z) :
  (length t < 4)%nat -> body t h = Z.lxor h (mix_word (le_word t)).
Proof.
  intros Ht. destruct t as [| b0 [| b1 [| b2 [| b3 rest]]]]; try reflexivity.
  cbn [length] in Ht. lia.
Qed.

Lemma body_range (bs : list byte) :
  forall h, 0 <= h < 2 ^ 32 -> 0 <= body bs h < 2 ^ 32.
Proof.
  induction bs as [t Ht | b0 b1 b2 b3 rest IH] using blocks_ind; intros h Hh.
  - rewrite body_tail by assumption.
    apply lxor_range; [lia | assumption | apply mix_word_range].
  - cbn [body]. apply IH. apply mix_block_range.
Qed.

Lemma body_injective (bs : list byte) :
  forall h h', 0 <= h < 2 ^ 32 -> 0 <= h' < 2 ^ 32 -> body bs h = body bs h' -> h = h'.
Proof.
  induction bs as [t Ht | b0 b1 b2 b3 rest IH] using blocks_ind; intros h h' Hh Hh' Heq.
  - rewrite !body_tail in Heq by assumption. now apply lxor_cancel_r in Heq.
  - cbn [body] in Heq. apply IH in Heq; try apply mix_block_range.
    now apply mix_block_injective_state in Heq.
Qed.

(** The state reached after a prefix of whole blocks. *)
Lemma body_after_blocks (n : nat) :
  forall (p : list byte) (h : Z),
    length p = (4 * n)%nat -> 0 <= h < 2 ^ 32 ->
    exists h0, 0 <= h0 < 2 ^ 32 /\ forall rest, body (p ++ rest) h = body rest h0.
Proof.
  induction n as [| n IH]; intros p h Hlen Hh.
  - destruct p; [| discriminate]. exists h. split; [assumption | reflexivity].
  - destruct p as [| b0 [| b1 [| b2 [| b3 p]]]]; cbn [length] in Hlen; try lia.
    destruct (IH p (mix_block h (le_word [b0; b1; b2; b3]))) as (h0 & Hh0 & Hrest);
      [lia | apply mix_block_range |].
    exists h0. split; [assumption |]. intros rest. cbn [app body]. apply Hrest.
Qed.

(** The code against the algorithm, for buffers that fit [int]. *)
Lemma Murmur3Hash_as_body (key : list byte) (seed : Z) :
  Z.of_nat (length key) < 2 ^ 31 ->
  Murmur3Hash key (Z.of_nat (length key)) seed =
    FMix (uint32_t (Z.lxor (body key seed) (Z.of_nat (length key)))).
Proof.
  intros Hlen. unfold Murmur3Hash.
  set (len := Z.of_nat (length key)) in *.
  assert (Hlen0 : 0 <= len) by (subst len; lia).
  pose proof (Z.div_mod len 4 ltac:(lia)) as Hdm.
  pose proof (Z.mod_pos_bound len 4 ltac:(lia)) as Hmod.
  assert (Hdiv : 0 <= len / 4 < 2 ^ 31) by (split; [apply Z.div_pos; lia | lia]).
  rewrite (int_small _ Hdiv).
  set (n := Z.to_nat (len / 4)).
  assert (Hn : Z.of_nat n = len / 4) by (subst n; lia).
  assert (Hbody := block_loop_body n [] key seed (len / 4)).
  cbn [app length] in Hbody. rewrite Hbody by (subst len; lia).
  rewrite (tail_switch_le_word key (len / 4) len _ (drop (4 * n) key)).
  - reflexivity.
  - rewrite length_drop. subst len. lia.
  - rewrite length_drop. f_equal. subst len. lia.
  - rewrite length_drop. subst len. lia.
  - change 3 with (Z.ones 2). rewrite Z.land_ones by lia.
    rewrite length_drop. change (2 ^ 2) with 4. subst len. lia.
Qed.

End BodyFacts.

(** ** What the hash reads *)

Section ReadFacts.

Import Hash.

Lemma block_loop_reads_blocks (data data' : list byte) (nb : Z) (n : nat) :
  forall h,
    Z.of_nat n <= nb ->
    (forall j, 0 <= j < nb * 4 -> at_index data j = at_index data' j) ->
    block_loop data nb n h = block_loop data' nb n h.
Proof.
  induction n as [| n IH]; intros h Hn Hsame; [reflexivity |].
  cbn [block_loop]. rewrite IH by (try assumption; lia).
  unfold blocks. rewrite !Hsame by lia. reflexivity.
Qed.

Lemma tail_switch_reads_tail (data data' : list byte) (nb len h : Z) :
  0 <= len -> nb = len / 4 ->
  (forall j, 0 <= j < len -> at_index data j = at_index data' j) ->
  tail_switch data nb len h = tail_switch data' nb len h.
Proof.
  intros Hlen Hnb Hsame. unfold tail_switch.
  assert (Hsel : Z.land len 3 = len mod 4).
  { change 3 with (Z.ones 2). now rewrite Z.land_ones by lia. }
  rewrite Hsel.
  pose proof (Z.div_mod len 4 ltac:(lia)) as Hdm.
  pose proof (Z.mod_pos_bound len 4 ltac:(lia)) as Hmod.
  assert (Hcase : len mod 4 = 0 \/ len mod 4 = 1 \/ len mod 4 = 2 \/ len mod 4 = 3) by lia.
  destruct Hcase as [E | [E | [E | E]]]; rewrite E in *; cbn [Z.eqb Pos.eqb orb].
  - reflexivity.
  - rewrite (Hsame (nb * 4 + 0)) by lia. reflexivity.
  - rewrite (Hsame (nb * 4 + 0)), (Hsame (nb * 4 + 1)) by lia. reflexivity.
  - rewrite (Hsame (nb * 4 + 0)), (Hsame (nb * 4 + 1)), (Hsame (nb * 4 + 2)) by lia.
    reflexivity.
Qed.

Lemma at_index_take (key : list byte) (len j : Z) :
  0 <= j < len -> at_index (take (Z.to_nat len) key) j = at_index key j.
Proof.
  intros Hj. unfold at_index. rewrite nth_firstn.
  destruct (Nat.ltb_spec (Z.to_nat j) (Z.to_nat len)); [reflexivity | lia].
Qed.

End ReadFacts.

(** ** Results on the hash *)

(** X1. The digest is a 32-bit word, for every buffer, length and seed. *)
Theorem Murmur3Hash_fits_uint32 (key : list byte) (len seed : Z) :
  0 <= Hash.Murmur3Hash key len seed < 2 ^ 32.
Proof. unfold Hash.Murmur3Hash. apply FMix_range. Qed.

(** X2. For a 32-bit word and a bit count between 1 and 31 the macro is the
    rotation to the left: the result is a 32-bit word, bit [i] of the result
    is bit [i - r] of the operand, counted modulo 32, and rotating on by
    [32 - r] gives the operand back. *)
Theorem CIRCULAR_SHIFT_LEFT_32_BITS_rotates (x r : Z) :
  0 <= x < 2 ^ 32 -> 0 < r < 32 ->
  0 <= Hash.CIRCULAR_SHIFT_LEFT_32_BITS x r < 2 ^ 32 /\
  (forall i, 0 <= i < 32 ->
     Z.testbit (Hash.CIRCULAR_SHIFT_LEFT_32_BITS x r) i = Z.testbit x ((i - r) mod 32)) /\
  Hash.CIRCULAR_SHIFT_LEFT_32_BITS (Hash.CIRCULAR_SHIFT_LEFT_32_BITS x r) (32 - r) = x.
Proof.
  intros Hx Hr. split; [now apply rotate_range |]. split; [| now apply rotate_back].
  intros i Hi. rewrite rotate_testbit by lia.
  destruct (Z.ltb_spec i r) as [Hlt | Hge].
  - f_equal. replace (i - r) with (i + 32 - r + -1 * 32) by lia.
    rewrite Z.mod_add by lia. rewrite Z.mod_small; lia.
  - destruct (Z.ltb_spec i 32); [| lia]. f_equal. rewrite Z.mod_small; lia.
Qed.

Lemma CIRCULAR_SHIFT_LEFT_32_BITS_rotates_witness :
  Hash.CIRCULAR_SHIFT_LEFT_32_BITS (Hash.CIRCULAR_SHIFT_LEFT_32_BITS 0x80000001 15) (32 - 15)
    = 0x80000001.
Proof.
  apply (CIRCULAR_SHIFT_LEFT_32_BITS_rotates 0x80000001 15); lia.
Defined.

(** X3. The finisher maps 32-bit words to 32-bit words one to one. *)
Theorem FMix_injective (a b : Z) :
  0 <= a < 2 ^ 32 -> 0 <= b < 2 ^ 32 ->
  Hash.FMix a = Hash.FMix b -> a = b.
Proof. apply FMix_injective_on_words. Qed.

Lemma FMix_injective_witness :
  0 <= 0xdeadbeef < 2 ^ 32 /\ Hash.FMix 0xdeadbeef = Hash.FMix 0xdeadbeef /\
  0xdeadbeef = 0xdeadbeef.
Proof.
  split; [lia |]. split; [reflexivity |].
  apply (FMix_injective 0xdeadbeef 0xdeadbeef); [lia | lia | reflexivity].
Defined.

(** X4. Only the first [len] bytes of the buffer are read: what follows them
    has no influence on the digest. *)
Theorem Murmur3Hash_reads_len_bytes (key : list byte) (len seed : Z) :
  0 <= len < 2 ^ 31 ->
  len <= Z.of_nat (length key) ->
  Hash.Murmur3Hash (take (Z.to_nat len) key) len seed = Hash.Murmur3Hash key len seed.
Proof.
  intros Hlen Hfit. unfold Hash.Murmur3Hash.
  pose proof (Z.div_mod len 4 ltac:(lia)) as Hdm.
  pose proof (Z.mod_pos_bound len 4 ltac:(lia)) as Hmod.
  assert (Hdiv : 0 <= len / 4 < 2 ^ 31) by (split; [apply Z.div_pos; lia | lia]).
  rewrite (int_small _ Hdiv).
  rewrite (block_loop_reads_blocks (take (Z.to_nat len) key) key).
  - rewrite (tail_switch_reads_tail (take (Z.to_nat len) key) key); [reflexivity | lia | reflexivity |].
    intros j Hj. now apply at_index_take.
  - lia.
  - intros j Hj. apply at_index_take. lia.
Qed.

Lemma Murmur3Hash_reads_len_bytes_witness :
  Hash.Murmur3Hash (take (Z.to_nat 3) (bytes_of "abcdef")) 3 0
    = Hash.Murmur3Hash (bytes_of "abcdef") 3 0.
Proof.
  apply (Murmur3Hash_reads_len_bytes (bytes_of "abcdef") 3 0); [lia | cbn; lia].
Defined.

(** X5. For one buffer, different seeds give different digests. *)
Theorem Murmur3Hash_seed_injective (key : list byte) (seed seed' : Z) :
  Z.of_nat (length key) < 2 ^ 31 ->
  0 <= seed < 2 ^ 32 -> 0 <= seed' < 2 ^ 32 ->
  Hash.Murmur3Hash key (Z.of_nat (length key)) seed
    = Hash.Murmur3Hash key (Z.of_nat (length key)) seed' ->
  seed = seed'.
Proof.
  intros Hlen Hs Hs' Heq. rewrite !Murmur3Hash_as_body in Heq by assumption.
  assert (Hr : forall s, 0 <= s < 2 ^ 32 ->
             0 <= Z.lxor (Murmur3Spec.body key s) (Z.of_nat (length key)) < 2 ^ 32).
  { intros s Hs0. apply lxor_range; [lia | now apply body_range | lia]. }
  apply FMix_injective_on_words in Heq; try apply uint32_t_range.
  rewrite !uint32_t_small in Heq by (apply Hr; assumption).
  apply lxor_cancel_r in Heq. now apply body_injective in Heq.
Qed.

Lemma Murmur3Hash_seed_injective_witness :
  Z.of_nat (length (bytes_of "PlayerDied")) < 2 ^ 31 /\ 7 = 7.
Proof.
  split; [reflexivity |].
  apply (Murmur3Hash_seed_injective (bytes_of "PlayerDied") 7 7); [reflexivity | lia | lia |].
  reflexivity.
Defined.

(** X6. The empty buffer hashes to the finisher of the seed, which is 0 for
    seed 0 only. *)
Theorem Murmur3Hash_empty (seed : Z) :
  0 <= seed < 2 ^ 32 ->
  Hash.Murmur3Hash [] 0 seed = Hash.FMix seed /\
  (Hash.Murmur3Hash [] 0 seed = 0 <-> seed = 0).
Proof.
  intros Hseed.
  assert (Hempty : Hash.Murmur3Hash [] 0 seed = Hash.FMix seed).
  { unfold Hash.Murmur3Hash. change (int (0 / 4)) with 0. cbn [Z.to_nat Hash.block_loop].
    change (Hash.tail_switch [] 0 0 seed) with seed.
    now rewrite Z.lxor_0_r, uint32_t_small. }
  split; [exact Hempty |]. rewrite Hempty. split.
  - intros Hzero. apply FMix_injective_on_words; [assumption | lia |].
    rewrite Hzero. reflexivity.
  - intros ->. reflexivity.
Qed.

Lemma Murmur3Hash_empty_witness : Hash.Murmur3Hash [] 0 1 = Hash.FMix 1.
Proof. apply (Murmur3Hash_empty 1). lia. Defined.

(** X7. Two buffers of one length that differ in a single aligned block of four
    bytes, or in the tail bytes only, have different digests under any one
    seed. *)
Theorem Murmur3Hash_block_sensitive (p b b' s : list byte) (seed : Z) :
  (exists n : nat, length p = (4 * n)%nat) ->
  length b = length b' ->
  length b = 4%nat \/ ((length b < 4)%nat /\ s = []) ->
  Z.of_nat (length (p ++ b ++ s)) < 2 ^ 31 ->
  0 <= seed < 2 ^ 32 ->
  b <> b' ->
  Hash.Murmur3Hash (p ++ b ++ s) (Z.of_nat (length (p ++ b ++ s))) seed
    <> Hash.Murmur3Hash (p ++ b' ++ s) (Z.of_nat (length (p ++ b' ++ s))) seed.
Proof.
  intros [n Hp] Hlen Hshape Hfit Hseed Hdiff Heq.
  assert (Hsame : length (p ++ b' ++ s) = length (p ++ b ++ s)).
  { rewrite !length_app. lia. }
  rewrite !Murmur3Hash_as_body in Heq by (rewrite ?Hsame; assumption).
  rewrite Hsame in Heq.
  assert (Hr : forall l, 0 <= Z.lxor (Murmur3Spec.body l seed) (Z.of_nat (length (p ++ b ++ s)))
                         < 2 ^ 32).
  { intros l. apply lxor_range; [lia | now apply body_range | lia]. }
  apply FMix_injective_on_words in Heq; try apply uint32_t_range.
  rewrite !uint32_t_small in Heq by apply Hr.
  apply lxor_cancel_r in Heq.
  destruct (body_after_blocks n p seed Hp Hseed) as (h0 & Hh0 & Hrest).
  rewrite !Hrest in Heq.
  apply Hdiff. destruct Hshape as [H4 | [Hshort ->]].
  - destruct b as [| b0 [| b1 [| b2 [| b3 [| ? ?]]]]]; try discriminate.
    destruct b' as [| c0 [| c1 [| c2 [| c3 [| ? ?]]]]]; try discriminate.
    cbn [app Murmur3Spec.body] in Heq.
    apply body_injective in Heq; try apply mix_block_range.
    apply mix_block_injective_word in Heq; try assumption.
    + now apply le_word_injective in Heq.
    + pose proof (le_word_range [b0; b1; b2; b3]) as Hw. cbn [length] in Hw. exact Hw.
    + pose proof (le_word_range [c0; c1; c2; c3]) as Hw. cbn [length] in Hw. exact Hw.
  - rewrite !app_nil_r in Heq. rewrite !body_tail in Heq by lia.
    rewrite (Z.lxor_comm h0), (Z.lxor_comm h0 (Murmur3Spec.mix_word (Murmur3Spec.le_word b'))) in Heq.
    apply lxor_cancel_r in Heq.
    assert (Hw : forall t : list byte, (length t < 4)%nat ->
               0 <= Murmur3Spec.le_word t < 2 ^ 32).
    { intros t Ht. pose proof (le_word_range t) as Hwt.
      assert (2 ^ (8 * Z.of_nat (length t)) <= 2 ^ 32) by (apply Z.pow_le_mono_r; lia). lia. }
    apply mix_word_injective in Heq; [| apply Hw; lia ..].
    now apply le_word_injective in Heq.
Qed.

Lemma Murmur3Hash_block_sensitive_witness :
  Hash.Murmur3Hash (bytes_of "PlayerDied") 10 0 <> Hash.Murmur3Hash (bytes_of "PlayerLied") 10 0.
Proof.
  apply (Murmur3Hash_block_sensitive (bytes_of "Play") (bytes_of "erDi") (bytes_of "erLi")
           (bytes_of "ed") 0).
  - exists 1%nat. reflexivity.
  - reflexivity.
  - left. reflexivity.
  - reflexivity.
  - lia.
  - discriminate.
Defined.

(** ** The comparators as orders *)

(** X8. [EventHandlerComparer] is a strict weak ordering, as [std::set] needs:
    irreflexive, transitive, and with a transitive equivalence. *)
Theorem EventHandlerComparer_strict_weak_ordering (State : Type) :
  (forall a : EventHandler State, EventHandlerComparer a a = false) /\
  (forall a b c : EventHandler State,
      EventHandlerComparer a b = true -> EventHandlerComparer b c = true ->
      EventHandlerComparer a c = true) /\
  (forall a b c : EventHandler State,
      equivalent a b = true -> equivalent b c = true -> equivalent a c = true).
Proof.
  split; [| split].
  - intros a. apply EventHandlerComparer_false, precedes_irrefl.
  - intros a b c Hab Hbc. apply EventHandlerComparer_precedes.
    apply EventHandlerComparer_precedes in Hab, Hbc. now apply precedes_trans with b.
  - intros a b c Hab Hbc. apply equivalent_same_element.
    apply equivalent_same_element in Hab, Hbc.
    destruct Hab as [Hp Ht], Hbc as [Hp' Ht']. split; congruence.
Qed.

Lemma EventHandlerComparer_strict_weak_ordering_witness :
  let a : EventHandler unit := (10, silent 1%N) in
  let b : EventHandler unit := (5, silent 9%N) in
  let c : EventHandler unit := (5, silent 12%N) in
  EventHandlerComparer a c = true.
Proof.
  intros a b c.
  apply (proj1 (proj2 (EventHandlerComparer_strict_weak_ordering unit)) a b c); reflexivity.
Defined.

(** X9. [EventComparer] is a strict weak ordering, as [std::priority_queue]
    needs: irreflexive, transitive, and with transitive incomparability. *)
Theorem EventComparer_strict_weak_ordering :
  (forall a : Event, EventComparer a a = false) /\
  (forall a b c : Event,
      EventComparer a b = true -> EventComparer b c = true -> EventComparer a c = true) /\
  (forall a b c : Event,
      EventComparer a b = false -> EventComparer b a = false ->
      EventComparer b c = false -> EventComparer c b = false ->
      EventComparer a c = false /\ EventComparer c a = false).
Proof.
  split; [| split].
  - intros a. apply EventComparer_false. lia.
  - intros a b c Hab Hbc. apply EventComparer_true.
    apply EventComparer_true in Hab, Hbc. lia.
  - intros a b c Hab Hba Hbc Hcb.
    apply EventComparer_false in Hab, Hba, Hbc, Hcb.
    split; apply EventComparer_false; lia.
Qed.

Lemma EventComparer_strict_weak_ordering_witness :
  EventComparer (plain_event 1 1) (plain_event 2 9) = true.
Proof.
  apply (proj1 (proj2 EventComparer_strict_weak_ordering)
           (plain_event 1 1) (plain_event 3 5) (plain_event 2 9)); reflexivity.
Defined.

(** ** More on the handler sets *)

Section MoreSetFacts.

Context {State : Type}.
Implicit Types x y h : EventHandler State.
Implicit Types s : list (EventHandler State).
Implicit Types m : EventManager State.

Lemma same_element_refl h : same_element h h.
Proof. split; reflexivity. Qed.

Lemma set_erase_insert_fresh h s :
  set_ok s -> (forall x, x ∈ s -> ~ same_element x h) -> set_erase h (set_insert h s) = s.
Proof.
  intros Hok Hfresh.
  apply set_ok_ext; [now apply set_erase_ok, set_insert_ok | assumption |].
  intros y. rewrite elem_of_set_erase_iff by now apply set_insert_ok.
  rewrite elem_of_set_insert_iff by assumption. split.
  - intros [[Hy | [-> _]] Hns]; [assumption |]. exfalso. apply Hns, same_element_refl.
  - intros Hy. split; [now left | now apply Hfresh].
Qed.

Lemma length_set_insert_fresh h s :
  (forall x, x ∈ s -> ~ same_element x h) -> length (set_insert h s) = S (length s).
Proof.
  induction s as [| x s IH]; intros Hfresh; cbn [set_insert]; [reflexivity |].
  destruct (EventHandlerComparer h x) eqn:E1; [reflexivity |].
  destruct (EventHandlerComparer x h) eqn:E2.
  - cbn [length]. rewrite IH; [reflexivity |].
    intros y Hy. apply Hfresh. apply elem_of_cons. now right.
  - exfalso. apply (Hfresh x); [apply elem_of_cons; now left |].
    apply equivalent_same_element. unfold equivalent. now rewrite E1, E2.
Qed.

Lemma set_ok_distinct s : set_ok s -> NoDup (map handler_id s).
Proof.
  induction s as [| x s IH]; intros Hok; cbn [map]; [apply NoDup_nil_2 |].
  apply set_ok_cons in Hok as [Hs Hx]. apply NoDup_cons. split; [| auto].
  intros Hin. apply list_elem_of_In, in_map_iff in Hin as (y & Hid & Hy).
  apply list_elem_of_In in Hy. apply handler_id_same_element in Hid.
  apply (precedes_not_same x y); [auto | now apply same_element_sym].
Qed.

Lemma handlers_of_AddHandler_ne k k' h m :
  k <> k' -> handlers_of k' (AddHandler k h m) = handlers_of k' m.
Proof.
  intros Hne. unfold handlers_of. cbn. now rewrite lookup_insert_ne.
Qed.

Lemma set_insert_has_match h s :
  set_ok s -> exists x, x ∈ set_insert h s /\ same_element x h.
Proof.
  intros Hok. destruct (classic_same h s) as [(x & Hx & Hsame) | Hfresh].
  - exists x. split; [now apply set_insert_keeps | assumption].
  - exists h. split; [now apply set_insert_fresh | apply same_element_refl].
Qed.

End MoreSetFacts.

(** ** Results on registration and removal *)

(** X10. After [AddHandler] the set of the key holds exactly one handler with
    the priority and callback type of the one given, every handler that was
    there is still there, and nothing else was added; the sets of the other
    keys and the queue are untouched. *)
Theorem AddHandler_registers (State : Type) (m : EventManager State) (k : Z)
    (h : EventHandler State) :
  manager_ok m ->
  length (List.filter (fun x => equivalent x h) (handlers_of k (AddHandler k h m))) = 1%nat /\
  (forall x, x ∈ handlers_of k (AddHandler k h m) <->
             x ∈ handlers_of k m \/
             (x = h /\ forall y, y ∈ handlers_of k m -> ~ same_element y h)) /\
  (forall k', k' <> k -> handlers_of k' (AddHandler k h m) = handlers_of k' m) /\
  m_eventQueue (AddHandler k h m) = m_eventQueue m.
Proof.
  intros Hok. pose proof (handlers_of_ok k m Hok) as Hs.
  rewrite handlers_of_AddHandler. split; [| split; [| split]].
  - destruct (set_insert_has_match h _ Hs) as (x & Hx & Hsame).
    apply (set_ok_one_match h _ x); [now apply set_insert_ok | assumption | assumption].
  - intros x. now apply elem_of_set_insert_iff.
  - intros k' Hne. apply handlers_of_AddHandler_ne. congruence.
  - reflexivity.
Qed.

Lemma AddHandler_registers_witness :
  let first : EventHandler unit := (5, silent 3%N) in
  let second : EventHandler unit := (9, silent 3%N) in
  let m := AddHandler 4 first new_manager in
  manager_ok m /\
  length (List.filter (fun x => equivalent x second) (handlers_of 4 (AddHandler 4 second m)))
    = 1%nat.
Proof.
  intros first second m.
  assert (Hok : manager_ok m) by apply AddHandler_ok, new_manager_ok.
  split; [exact Hok |].
  exact (proj1 (AddHandler_registers unit m 4 second Hok)).
Defined.

(** X11. Removing a handler right after registering it, when none with its
    priority and callback type was registered before, gives back the set of
    the key; the key itself stays in the registry, with an empty set when it
    had none. *)
Theorem RemoveHandler_undoes_AddHandler (State : Type) (m : EventManager State) (k : Z)
    (h : EventHandler State) :
  manager_ok m ->
  (forall x, x ∈ handlers_of k m -> ~ same_element x h) ->
  let m' := RemoveHandler k h (AddHandler k h m) in
  m_handlers m' !! k = Some (handlers_of k m) /\
  (forall k', k' <> k -> m_handlers m' !! k' = m_handlers m !! k') /\
  m_eventQueue m' = m_eventQueue m.
Proof.
  intros Hok Hfresh m'. subst m'. unfold RemoveHandler.
  assert (Hlook : m_handlers (AddHandler k h m) !! k = Some (set_insert h (handlers_of k m))).
  { cbn. now rewrite lookup_insert_eq. }
  rewrite Hlook. cbn [m_handlers m_eventQueue AddHandler].
  split; [| split].
  - rewrite lookup_insert_eq. f_equal.
    apply set_erase_insert_fresh; [now apply handlers_of_ok | assumption].
  - intros k' Hne. now rewrite !lookup_insert_ne by congruence.
  - reflexivity.
Qed.

Lemma RemoveHandler_undoes_AddHandler_witness :
  let h : EventHandler unit := (5, silent 3%N) in
  m_handlers (RemoveHandler 4 h (AddHandler 4 h new_manager)) !! 4 = Some [].
Proof.
  intros h.
  apply (RemoveHandler_undoes_AddHandler unit new_manager 4 h new_manager_ok).
  intros x Hx. inversion Hx.
Defined.

(** X12. Registering a handler twice is registering it once, and removing it
    twice is removing it once. *)
Theorem AddHandler_RemoveHandler_idempotent (State : Type) (m : EventManager State) (k : Z)
    (h : EventHandler State) :
  manager_ok m ->
  AddHandler k h (AddHandler k h m) = AddHandler k h m /\
  RemoveHandler k h (RemoveHandler k h m) = RemoveHandler k h m.
Proof.
  intros Hok. split.
  - destruct (set_insert_has_match h _ (handlers_of_ok k m Hok)) as (x & Hx & Hsame).
    apply (AddHandler_same_noop k h x); [now apply AddHandler_ok | | assumption].
    now rewrite handlers_of_AddHandler.
  - apply RemoveHandler_unmatched. intros x Hx.
    rewrite handlers_of_RemoveHandler in Hx.
    apply elem_of_set_erase_iff in Hx; [tauto | now apply handlers_of_ok].
Qed.

Lemma AddHandler_RemoveHandler_idempotent_witness :
  let h : EventHandler unit := (5, silent 3%N) in
  let m := AddHandler 4 (7, silent 1%N) new_manager in
  AddHandler 4 h (AddHandler 4 h m) = AddHandler 4 h m /\
  RemoveHandler 4 h (RemoveHandler 4 h m) = RemoveHandler 4 h m.
Proof.
  intros h m.
  apply (AddHandler_RemoveHandler_idempotent unit m 4 h).
  apply AddHandler_ok, new_manager_ok.
Defined.

(** X13. In every manager the operations build, no two handlers registered for
    one key have the same priority and the same callback type, and the
    handlers of a key are in registry order. *)
Theorem registered_handlers_distinct (State : Type) (m : EventManager State) (k : Z) :
  reachable m ->
  NoDup (map handler_id (handlers_of k m)) /\
  StronglySorted precedes (handlers_of k m).
Proof.
  intros Hreach. apply reachable_ok in Hreach.
  pose proof (handlers_of_ok k m Hreach) as Hs.
  split; [now apply set_ok_distinct | now apply set_ok_precedes].
Qed.

Lemma registered_handlers_distinct_witness :
  let m : EventManager unit :=
    AddHandler 4 (5, silent 3%N) (AddHandler 4 (5, silent 3%N) new_manager) in
  NoDup (map handler_id (handlers_of 4 m)).
Proof.
  intros m.
  apply (registered_handlers_distinct unit m 4).
  do 2 apply reach_AddHandler. apply reach_new.
Defined.

(** ** More on the queue and the loop *)

Section MoreRunFacts.

Context {State : Type}.
Implicit Types m : EventManager State.
Implicit Types h : EventHandler State.
Implicit Types w : World State.

Lemma pq_push_permutation (e : Event) (q : list Event) : pq_push e q ≡ₚ e :: q.
Proof.
  induction q as [| x q IH]; cbn [pq_push]; [reflexivity |].
  destruct (EventComparer x e); [reflexivity |].
  rewrite IH. apply perm_swap.
Qed.

Lemma push_all_permutation (pushed : list Event) :
  forall m, m_eventQueue (push_all pushed m) ≡ₚ m_eventQueue m ++ pushed.
Proof.
  unfold push_all. induction pushed as [| e pushed IH]; intros m; cbn [fold_left].
  - now rewrite app_nil_r.
  - rewrite IH. cbn [PushEvent m_eventQueue]. rewrite pq_push_permutation.
    cbn [app]. apply Permutation_middle.
Qed.

Lemma elem_of_removelast (hs : list (EventHandler State)) h :
  h ∈ removelast hs -> h ∈ hs.
Proof.
  induction hs as [| x [| y hs] IH]; cbn [removelast]; intros Hh; try (inversion Hh; fail).
  apply elem_of_cons in Hh as [-> | Hh]; apply elem_of_cons; [now left | right; auto].
Qed.

Lemma call_all_below (hs : list (EventHandler State)) (event : Event) :
  (forall h, h ∈ hs -> pushes_below event h) ->
  forall s e, e ∈ (call_all hs event s).2 -> GetPriorityLevel e <= GetPriorityLevel event.
Proof.
  induction hs as [| h hs IH]; intros Hbelow s e He; cbn [call_all] in He.
  - cbn in He. inversion He.
  - pose proof (Hbelow h ltac:(apply elem_of_cons; now left) s) as Hh.
    destruct (target h.2 event s) as [s1 p1].
    specialize (IH ltac:(intros h' Hh'; apply Hbelow, elem_of_cons; now right) s1).
    destruct (call_all hs event s1) as [s2 p2]. cbn [snd] in *.
    apply elem_of_app in He as [He | He]; [now apply Hh | now apply IH].
Qed.

(** One iteration in which only the handler called last pushes, and nothing
    above the dispatched event: the event popped is the one dispatched. *)
Lemma iteration_orderly_facts w event rest :
  m_eventQueue (manager w) = event :: rest ->
  last_pushes event (handlers_of (GetType event) (manager w)) ->
  (forall h, h ∈ handlers_of (GetType event) (manager w) -> pushes_below event h) ->
  trace (iteration w) =
    trace w ++ Dispatch event (event :: rest)
      :: map (fun h => Invoke h event) (handlers_of (GetType event) (manager w))
      ++ [Discard event] /\
  captured (iteration w) =
    (call_all (handlers_of (GetType event) (manager w)) event (captured w)).1 /\
  m_eventQueue (manager (iteration w)) ≡ₚ
    rest ++ (call_all (handlers_of (GetType event) (manager w)) event (captured w)).2 /\
  m_handlers (manager (iteration w)) = m_handlers (manager w).
Proof.
  intros Eq Hlast Hbelow.
  destruct (iteration_last_pushes w event rest Eq Hlast) as (d & q' & Hq' & Ht & Hc & Hm).
  destruct (push_all_below_top
              (call_all (handlers_of (GetType event) (manager w)) event (captured w)).2
              (manager w) event rest Eq
              (call_all_below _ event Hbelow (captured w))) as [q1 Hq1].
  pose proof (push_all_permutation
                (call_all (handlers_of (GetType event) (manager w)) event (captured w)).2
                (manager w)) as Hperm.
  rewrite Hq1 in Hq'. injection Hq' as <- <-.
  rewrite Hq1, Eq in Hperm. cbn [app] in Hperm. apply Permutation_cons_inv in Hperm.
  rewrite Hm. cbn [m_eventQueue m_handlers]. auto.
Qed.

Lemma quiet_pushes_below m :
  quiet m -> orderly m.
Proof.
  intros Hquiet. split.
  - intros k s event Hlook _ h Hh st.
    apply (Hquiet k s h event st Hlook). now apply elem_of_removelast.
  - intros k s h event Hlook Hh _ st e He.
    rewrite (Hquiet k s h event st Hlook Hh) in He. inversion He.
Qed.

Lemma one_pusher_handlers_of m event :
  one_pusher m -> last_pushes event (handlers_of (GetType event) m).
Proof.
  intros Hone. unfold handlers_of.
  destruct (m_handlers m !! GetType event) as [s |] eqn:E.
  - exact (Hone (GetType event) s event E eq_refl).
  - intros h Hh. inversion Hh.
Qed.

Lemma orderly_handlers_of m event h :
  orderly m -> h ∈ handlers_of (GetType event) m -> pushes_below event h.
Proof.
  intros [_ Hord] Hh. destruct (elem_of_handlers_of _ _ _ Hh) as (s & Hlook & Hs).
  exact (Hord (GetType event) s h event Hlook Hs eq_refl).
Qed.

End MoreRunFacts.

Section TraceFacts.

Context {State : Type}.

Lemma dispatched_invocations (hs : list (EventHandler State)) (x : Event) :
  dispatched (map (fun h => Invoke h x) hs) = [].
Proof. induction hs as [| h hs IH]; [reflexivity | exact IH]. Qed.

Lemma discarded_invocations (hs : list (EventHandler State)) (x : Event) :
  discarded (map (fun h => Invoke h x) hs) = [].
Proof. induction hs as [| h hs IH]; [reflexivity | exact IH]. Qed.

Lemma invoked_invocations (hs : list (EventHandler State)) (x : Event) :
  invoked (map (fun h => Invoke h x) hs) = hs.
Proof. induction hs as [| h hs IH]; [reflexivity | cbn; f_equal; exact IH]. Qed.

(** The projections of the trace of an iteration that discards what it
    dispatched. *)
Lemma iteration_shape_projections (t : list (Observation State)) (event : Event)
    (pending : list Event) (hs : list (EventHandler State)) :
  let t' := t ++ Dispatch event pending :: map (fun h => Invoke h event) hs ++ [Discard event] in
  dispatched t' = dispatched t ++ [event] /\
  discarded t' = discarded t ++ [event] /\
  invoked t' = invoked t ++ hs.
Proof.
  cbv zeta. rewrite dispatched_app, discarded_app, invoked_app.
  change (Dispatch event pending :: map (fun h => Invoke h event) hs ++ [Discard event])
    with ([Dispatch event pending] ++ map (fun h => Invoke h event) hs ++ [Discard event]).
  rewrite !dispatched_app, !discarded_app, !invoked_app.
  rewrite dispatched_invocations, discarded_invocations, invoked_invocations.
  cbn. now rewrite app_nil_r.
Qed.


End TraceFacts.

(** ** Results on the queue and on draining it *)

(** X14. [PushEvent] adds the event to the queue and nothing else: the queue
    afterwards holds the event and the events queued before, the registry is
    as it was, and the new top is an event nothing in the queue exceeds. *)
Theorem PushEvent_enqueues (State : Type) (m : EventManager State) (event : Event) :
  manager_ok m ->
  m_eventQueue (PushEvent event m) ≡ₚ event :: m_eventQueue m /\
  m_handlers (PushEvent event m) = m_handlers m /\
  exists top rest,
    m_eventQueue (PushEvent event m) = top :: rest /\
    forall e, e ∈ event :: m_eventQueue m -> GetPriorityLevel e <= GetPriorityLevel top.
Proof.
  intros Hok. split; [apply pq_push_permutation |]. split; [reflexivity |].
  destruct (PushEvent_ok event m Hok) as [Hq _].
  destruct (m_eventQueue (PushEvent event m)) as [| top rest] eqn:Eq.
  - exfalso. cbn in Eq. now apply pq_push_not_nil in Eq.
  - exists top, rest. split; [reflexivity |].
    intros e He. destruct (queue_ok_top top rest Hq) as [_ Hmax]. apply Hmax.
    rewrite <- Eq. cbn. now apply elem_of_pq_push, elem_of_cons.
Qed.

Lemma PushEvent_enqueues_witness :
  let m : EventManager unit := PushEvent (plain_event 1 5) new_manager in
  m_eventQueue (PushEvent (plain_event 2 9) m) ≡ₚ plain_event 2 9 :: m_eventQueue m.
Proof.
  intros m.
  apply (PushEvent_enqueues unit m (plain_event 2 9)).
  apply PushEvent_ok, new_manager_ok.
Defined.

(** X16. One iteration in which only the handler called last pushes, and
    nothing above the event it is given: every handler of the key is called
    with the dispatched event, in registry order, each on the captured state
    the one before left; the event removed is the one dispatched; the events
    pushed are queued with those that were waiting. *)
Theorem iteration_orderly (State : Type) (w : World State) (event : Event)
    (rest : list Event) :
  m_eventQueue (manager w) = event :: rest ->
  last_pushes event (handlers_of (GetType event) (manager w)) ->
  (forall h, h ∈ handlers_of (GetType event) (manager w) -> pushes_below event h) ->
  let hs := handlers_of (GetType event) (manager w) in
  trace (iteration w) =
    trace w ++ Dispatch event (event :: rest)
      :: map (fun h => Invoke h event) hs ++ [Discard event] /\
  captured (iteration w) = (call_all hs event (captured w)).1 /\
  m_eventQueue (manager (iteration w)) ≡ₚ rest ++ (call_all hs event (captured w)).2.
Proof.
  intros Eq Hlast Hbelow hs.
  destruct (iteration_orderly_facts w event rest Eq Hlast Hbelow) as (Ht & Hc & Hq & _).
  auto.
Qed.

Lemma iteration_orderly_witness :
  let count : EventHandler nat :=
    (3, {| target_type := 1%N; target := fun _ n => (S n, []) |}) in
  let double : EventHandler nat :=
    (1, {| target_type := 1%N; target := fun _ n => ((2 * n)%nat, [plain_event 2 0]) |}) in
  let w := world (PushEvent (plain_event 1 5)
                    (AddHandler 1 double (AddHandler 1 count new_manager))) 3%nat [] in
  handlers_of 1 (manager w) = [count; double] /\
  trace (iteration w) =
    [Dispatch (plain_event 1 5) [plain_event 1 5];
     Invoke count (plain_event 1 5); Invoke double (plain_event 1 5);
     Discard (plain_event 1 5)] /\
  captured (iteration w) = 8%nat /\
  m_eventQueue (manager (iteration w)) ≡ₚ [plain_event 2 0].
Proof.
  intros count double w. split; [reflexivity |].
  apply (iteration_orderly nat w (plain_event 1 5) [] eq_refl).
  - intros h Hh st. cbn in Hh. apply list_elem_of_singleton in Hh. now subst h.
  - intros h Hh st e He.
    apply elem_of_cons in Hh as [-> | Hh].
    + cbn in He. inversion He.
    + apply list_elem_of_singleton in Hh. subst h. cbn in He.
      apply list_elem_of_singleton in He. subst e. cbn. lia.
Defined.

Section WholeRunFacts.

Context {State : Type}.
Implicit Types w : World State.

Lemma orderly_iteration w : orderly (manager w) -> orderly (manager (iteration w)).
Proof.
  intros Hord. destruct (m_eventQueue (manager w)) as [| event rest] eqn:Eq.
  - unfold iteration. now rewrite Eq.
  - destruct (iteration_facts w event rest Eq) as (Hh & _).
    unfold orderly, one_pusher. rewrite Hh. exact Hord.
Qed.

Lemma ProcessEvents_orderly_run fuel :
  forall w w',
    orderly (manager w) ->
    ProcessEvents fuel w = Some w' ->
    exists evs,
      dispatched (trace w') = dispatched (trace w) ++ evs /\
      discarded (trace w') = discarded (trace w) ++ evs /\
      m_eventQueue (manager w) ⊆+ evs.
Proof.
  induction fuel as [| fuel IH]; intros w w' Hord Hrun; cbn [ProcessEvents] in Hrun;
    destruct (m_eventQueue (manager w)) as [| event rest] eqn:Eq; try congruence.
  - injection Hrun as <-. exists []. now rewrite !app_nil_r.
  - injection Hrun as <-. exists []. now rewrite !app_nil_r.
  - destruct (IH _ _ (orderly_iteration w Hord) Hrun) as (evs & Hd & Hx & Hsub).
    assert (Hbelow : forall h, h ∈ handlers_of (GetType event) (manager w) ->
                               pushes_below event h).
    { intros h Hh. now apply (orderly_handlers_of (manager w)). }
    destruct (iteration_orderly_facts w event rest Eq
                (one_pusher_handlers_of (manager w) event (proj1 Hord)) Hbelow)
      as (Ht & _ & Hq & _).
    destruct (iteration_shape_projections (trace w) event (event :: rest)
                (handlers_of (GetType event) (manager w))) as (Hpd & Hpx & _).
    rewrite <- Ht in Hpd, Hpx.
    exists (event :: evs). split; [| split].
    + rewrite Hd, Hpd. now rewrite <- app_assoc.
    + rewrite Hx, Hpx. now rewrite <- app_assoc.
    + apply submseteq_skip. rewrite Hq in Hsub.
      transitivity (rest ++ (call_all (handlers_of (GetType event) (manager w)) event
                               (captured w)).2); [| assumption].
      now apply submseteq_inserts_r.
Qed.


End WholeRunFacts.

(** X17. When, for every event, only the handler called last pushes, and
    handlers push only events that are not above the event they are
    handling, a call of [ProcessEvents] that returns has discarded exactly
    the events it dispatched, in the order of their dispatch, and every
    event that was queued at the call is among them. *)
Theorem ProcessEvents_orderly (State : Type) (fuel : nat) (w w' : World State) :
  orderly (manager w) ->
  ProcessEvents fuel w = Some w' ->
  exists evs,
    dispatched (trace w') = dispatched (trace w) ++ evs /\
    discarded (trace w') = discarded (trace w) ++ evs /\
    m_eventQueue (manager w) ⊆+ evs.
Proof. apply ProcessEvents_orderly_run. Qed.


(** ** Results on the overloads by name *)

(** X21. The overloads that take a name act on the key the name hashes to: a
    handler registered under one name is found and removed through any name
    with the same hash, and is called for every event whose key is that
    hash. *)
Theorem handlers_by_name_share_key (State : Type) (HashEventString : string -> Z)
    (a b : string) (h : EventHandler State) (m : EventManager State) :
  manager_ok m ->
  HashEventString a = HashEventString b ->
  let m1 := AddHandler_by_name HashEventString a h m in
  (forall x, x ∈ handlers_of (HashEventString a)
                   (RemoveHandler_by_name HashEventString b h m1) ->
             ~ same_element x h) /\
  (forall (s : State) (t : list (Observation State)) (event : Event) (rest : list Event),
      m_eventQueue m = event :: rest ->
      GetType event = HashEventString b ->
      exists x, same_element x h /\
                x ∈ drop (length (invoked t)) (invoked (trace (iteration (world m1 s t))))).
Proof.
  intros Hok Hhash m1. subst m1. unfold AddHandler_by_name, RemoveHandler_by_name.
  rewrite <- Hhash. split.
  - intros x Hx. rewrite handlers_of_RemoveHandler in Hx.
    apply elem_of_set_erase_iff in Hx; [tauto |].
    now apply handlers_of_ok, AddHandler_ok.
  - intros s t event rest Eq Hkey.
    rewrite (iteration_invokes_set (world (AddHandler (HashEventString a) h m) s t) event rest)
      by exact Eq.
    cbn [trace manager world]. rewrite drop_app_length. rewrite Hkey, handlers_of_AddHandler.
    destruct (set_insert_has_match h _ (handlers_of_ok (HashEventString a) m Hok))
      as (x & Hx & Hsame).
    now exists x.
Qed.

Lemma handlers_by_name_share_key_witness :
  let H := fun name : string => Hash.Murmur3Hash (bytes_of name) (Z.of_nat (length (bytes_of name))) 0 in
  let h : EventHandler unit := (5, silent 3%N) in
  let key := H "PlayerDied" in
  let m : EventManager unit := PushEvent (plain_event key 1) new_manager in
  handlers_of key
    (RemoveHandler_by_name H "PlayerDied" h (AddHandler_by_name H "PlayerDied" h m)) = [] /\
  exists x, same_element x h /\
            x ∈ invoked (trace (iteration (world (AddHandler_by_name H "PlayerDied" h m) tt []))).
Proof.
  intros H h key m.
  assert (Hok : manager_ok m) by apply PushEvent_ok, new_manager_ok.
  destruct (handlers_by_name_share_key unit H "PlayerDied" "PlayerDied" h m Hok eq_refl)
    as [Hgone Hcalled].
  split; [vm_compute; reflexivity |].
  exact (Hcalled tt [] (plain_event key 1) [] eq_refl eq_refl).
Defined.

Lemma ProcessEvents_orderly_witness :
  let thrice : EventHandler nat :=
    (0, {| target_type := 1%N;
           target := fun event n => if (n <? 3)%nat then (S n, [event]) else (n, []) |}) in
  let w : World nat :=
    world (PushEvent (plain_event 1 5) (AddHandler 1 thrice new_manager)) 0%nat [] in
  orderly (manager w) /\
  exists w',
    ProcessEvents 4 w = Some w' /\
    captured w' = 3%nat /\
    dispatched (trace w') = repeat (plain_event 1 5) 4 /\
    exists evs,
      dispatched (trace w') = evs /\ discarded (trace w') = evs /\
      [plain_event 1 5] ⊆+ evs.
Proof.
  intros thrice w.
  assert (Hord : orderly (manager w)).
  { split.
    - intros k s event Hlook _ h Hh. cbn in Hlook.
      destruct (decide (k = 1)) as [-> | Hne].
      + rewrite lookup_insert_eq in Hlook. injection Hlook as <-. inversion Hh.
      + rewrite lookup_insert_ne, lookup_empty in Hlook by congruence. discriminate.
    - intros k s h event Hlook Hh _ st e He.
      cbn in Hlook. destruct (decide (k = 1)) as [-> | Hne].
      + rewrite lookup_insert_eq in Hlook. injection Hlook as <-.
        apply list_elem_of_singleton in Hh. subst h. cbn in He.
        destruct (st <=? 2)%nat; cbn in He; [| inversion He].
        apply list_elem_of_singleton in He. subst e. lia.
      + rewrite lookup_insert_ne, lookup_empty in Hlook by congruence. discriminate. }
  split; [exact Hord |].
  destruct (ProcessEvents 4 w) as [w' |] eqn:Hrun; [| vm_compute in Hrun; discriminate].
  exists w'. split; [reflexivity |].
  destruct (ProcessEvents_orderly nat 4 w w' Hord Hrun) as (evs & Hd & Hx & Hsub).
  split; [| split].
  - vm_compute in Hrun. injection Hrun as <-. reflexivity.
  - vm_compute in Hrun. injection Hrun as <-. reflexivity.
  - exists evs. split; [exact Hd | split; [exact Hx | exact Hsub]].
Defined.


(** ** Pushes above the dispatched event, and pushes without end *)

Section HazardFacts.

Context {State : Type}.
Implicit Types w : World State.
Implicit Types h : EventHandler State.

Lemma invoke_keeps_queued w h (x : Event) :
  x ∈ m_eventQueue (manager w) -> x ∈ m_eventQueue (manager (invoke w h)).
Proof.
  intros Hx. unfold invoke.
  destruct (m_eventQueue (manager w)) as [| event q] eqn:Eq; [now rewrite Eq |].
  destruct (target h.2 event (captured w)) as [s pushed]. cbn [manager].
  rewrite push_all_permutation, Eq. apply elem_of_app. now left.
Qed.

Lemma invoke_all_keeps_queued (hs : list (EventHandler State)) :
  forall w (x : Event),
    x ∈ m_eventQueue (manager w) -> x ∈ m_eventQueue (manager (fold_left invoke hs w)).
Proof.
  induction hs as [| h hs IH]; intros w x Hx; cbn [fold_left]; [assumption |].
  apply IH. now apply invoke_keeps_queued.
Qed.

Lemma call_all_pushes (hs : list (EventHandler State)) (event : Event) :
  forall (s : State) h,
    h ∈ hs ->
    exists st, forall e, e ∈ (target h.2 event st).2 -> e ∈ (call_all hs event s).2.
Proof.
  induction hs as [| h0 hs IH]; intros s h Hh; [inversion Hh |].
  cbn [call_all]. apply elem_of_cons in Hh as [-> | Hh].
  - exists s. intros e He.
    destruct (target h0.2 event s) as [s1 p1]. destruct (call_all hs event s1) as [s2 p2].
    cbn [snd] in *. apply elem_of_app. now left.
  - destruct (target h0.2 event s) as [s1 p1].
    destruct (IH s1 h Hh) as [st Hst]. exists st. intros e He.
    specialize (Hst e He). destruct (call_all hs event s1) as [s2 p2].
    cbn [snd] in *. apply elem_of_app. now right.
Qed.

(** Where a push leaves what was queued: behind the top. *)
Lemma pq_push_tail (e a : Event) (q : list Event) :
  exists a' q',
    pq_push e (a :: q) = a' :: q' /\
    (forall y, y ∈ q -> y ∈ q') /\
    ((a' = a /\ e ∈ q') \/ (a' = e /\ a ∈ q')).
Proof.
  cbn [pq_push]. destruct (EventComparer a e).
  - exists e, (a :: q). split; [reflexivity |].
    split; [intros y Hy; apply elem_of_cons; now right |].
    right. split; [reflexivity | apply elem_of_cons; now left].
  - exists a, (pq_push e q). split; [reflexivity |].
    split; [intros y Hy; apply elem_of_pq_push; now right |].
    left. split; [reflexivity | apply elem_of_pq_push; now left].
Qed.

Lemma push_all_tail (pushed : list Event) :
  forall (m : EventManager State) a q,
    m_eventQueue m = a :: q ->
    forall y, y ∈ q -> y ∈ tail (m_eventQueue (push_all pushed m)).
Proof.
  unfold push_all. induction pushed as [| e pushed IH]; intros m a q Eq y Hy; cbn [fold_left].
  - now rewrite Eq.
  - destruct (pq_push_tail e a q) as (a' & q' & Hpush & Hsub & _).
    apply (IH (PushEvent e m) a' q'); [cbn; now rewrite Eq | now apply Hsub].
Qed.

(** With an event of key [k] on top and one among the events pushed, one of
    them is behind the top afterwards. *)
Lemma push_all_tail_key (k : Z) (pushed : list Event) :
  forall (m : EventManager State) a q e,
    m_eventQueue m = a :: q -> GetType a = k -> e ∈ pushed -> GetType e = k ->
    exists y, y ∈ tail (m_eventQueue (push_all pushed m)) /\ GetType y = k.
Proof.
  induction pushed as [| e0 pushed IH]; intros m a q e Eq Ha He Hk; [inversion He |].
  change (push_all (e0 :: pushed) m) with (push_all pushed (PushEvent e0 m)).
  destruct (pq_push_tail e0 a q) as (a' & q' & Hpush & Hsub & Hcase).
  assert (Eq' : m_eventQueue (PushEvent e0 m) = a' :: q') by (cbn; now rewrite Eq).
  destruct Hcase as [[-> He0] | [-> Ha']].
  - apply elem_of_cons in He as [-> | He].
    + exists e0. split; [| assumption]. now apply (push_all_tail pushed _ a q').
    + now apply (IH (PushEvent e0 m) a q' e).
  - exists a. split; [| assumption]. now apply (push_all_tail pushed _ e0 q').
Qed.

End HazardFacts.

(** X19. When the first handler called for an event pushes an event of greater
    priority, [pop()] removes an event above the dispatched one, and the
    dispatched event is still in the queue when the iteration ends. *)
Theorem iteration_keeps_event_below_push (State : Type) (w : World State)
    (event e : Event) (rest : list Event) (h : EventHandler State)
    (hs : list (EventHandler State)) :
  manager_ok (manager w) ->
  m_eventQueue (manager w) = event :: rest ->
  handlers_of (GetType event) (manager w) = h :: hs ->
  e ∈ (target h.2 event (captured w)).2 ->
  GetPriorityLevel event < GetPriorityLevel e ->
  event ∈ m_eventQueue (manager (iteration w)) /\
  exists t d,
    trace (iteration w) = t ++ [Discard d] /\
    GetPriorityLevel event < GetPriorityLevel d.
Proof.
  intros [Hq _] Eq Hset He Habove. unfold iteration. rewrite Eq.
  set (w0 := observe (Dispatch event (event :: rest)) w).
  change (m_handlers (manager w0)) with (m_handlers (manager w)).
  unfold handlers_of in Hset.
  destruct (m_handlers (manager w) !! GetType event) as [hs0 |]; [| discriminate].
  change (default [] (Some hs0)) with hs0 in Hset. subst hs0. cbn [fold_left].
  set (w1 := invoke w0 h).
  assert (Hin1 : event ∈ m_eventQueue (manager w1) /\ e ∈ m_eventQueue (manager w1)).
  { subst w1. unfold invoke. change (m_eventQueue (manager w0)) with (m_eventQueue (manager w)).
    rewrite Eq. change (captured w0) with (captured w).
    destruct (target h.2 event (captured w)) as [s pushed]. cbn [snd] in He. cbn [manager].
    change (manager w0) with (manager w).
    rewrite !push_all_permutation, Eq. split; apply elem_of_app.
    - left. apply elem_of_cons. now left.
    - now right. }
  destruct Hin1 as [Hevent He1].
  assert (Hne1 : m_eventQueue (manager w1) <> []).
  { intros Hnil. rewrite Hnil in Hevent. inversion Hevent. }
  assert (Hok1 : queue_ok (m_eventQueue (manager w1))).
  { subst w1. apply invoke_facts; [| exact Hq]. cbn. now rewrite Eq. }
  destruct (invoke_all_facts hs w1 Hne1) as (_ & Hne2 & Hok2 & _).
  specialize (Hok2 Hok1).
  pose proof (invoke_all_keeps_queued hs w1 event Hevent) as Hevent2.
  pose proof (invoke_all_keeps_queued hs w1 e He1) as He2.
  unfold pop.
  destruct (m_eventQueue (manager (fold_left invoke hs w1))) as [| d q2] eqn:Eq2;
    [contradiction |].
  cbn [manager trace m_eventQueue pq_pop tail].
  destruct (queue_ok_top d q2 Hok2) as [_ Hmax].
  assert (Hd : GetPriorityLevel event < GetPriorityLevel d).
  { specialize (Hmax e He2). lia. }
  split.
  - apply elem_of_cons in Hevent2 as [-> | Hin]; [lia | assumption].
  - eexists _, d. split; [reflexivity | assumption].
Qed.

Lemma iteration_keeps_event_below_push_witness :
  Reentrant.low ∈ m_eventQueue (manager (iteration Reentrant.start)).
Proof.
  apply (iteration_keeps_event_below_push bool Reentrant.start Reentrant.low Reentrant.high []
           Reentrant.on_low []).
  - apply PushEvent_ok, AddHandler_ok, AddHandler_ok, new_manager_ok.
  - reflexivity.
  - reflexivity.
  - apply list_elem_of_singleton. reflexivity.
  - cbn. lia.
Defined.

(** X20. A handler that, whenever it is called for an event of its key, pushes
    an event of that key keeps the queue from ever running empty: with such
    an event queued, [ProcessEvents] does not return, however many
    iterations it is given, and whatever the priorities of the events
    pushed (for every event, only the handler called last pushing). *)
Theorem ProcessEvents_flood_never_returns (State : Type) (k : Z) (h : EventHandler State)
    (fuel : nat) :
  forall w : World State,
    one_pusher (manager w) ->
    h ∈ handlers_of k (manager w) ->
    (forall event st, GetType event = k ->
                      exists e, e ∈ (target h.2 event st).2 /\ GetType e = k) ->
    (exists x, x ∈ m_eventQueue (manager w) /\ GetType x = k) ->
    ProcessEvents fuel w = None.
Proof.
  induction fuel as [| fuel IH]; intros w Hone Hh Hpush (x & Hx & Hkey); cbn [ProcessEvents];
    destruct (m_eventQueue (manager w)) as [| event rest] eqn:Eq;
    try (inversion Hx; fail); [reflexivity |].
  destruct (iteration_last_pushes w event rest Eq
              (one_pusher_handlers_of (manager w) event Hone))
    as (d & q' & Hq' & _ & _ & Hm).
  apply IH.
  - rewrite Hm. exact Hone.
  - rewrite Hm. exact Hh.
  - assumption.
  - rewrite Hm. cbn [m_eventQueue].
    change q' with (tail (d :: q')). rewrite <- Hq'.
    destruct (Z.eq_dec (GetType event) k) as [Hk | Hk].
    + rewrite Hk.
      destruct (call_all_pushes (handlers_of k (manager w)) event (captured w) h Hh)
        as [st Hst].
      destruct (Hpush event st Hk) as (e & He & Hek).
      apply (push_all_tail_key k _ (manager w) event rest e Eq Hk (Hst e He) Hek).
    + exists x. split; [| assumption].
      apply (push_all_tail _ (manager w) event rest Eq).
      apply elem_of_cons in Hx as [-> | Hx]; [contradiction | assumption].
Qed.

Lemma ProcessEvents_flood_never_returns_witness :
  let alarm : EventHandler nat :=
    (0, {| target_type := 1%N; target := fun _ n => (S n, [plain_event 1 9]) |}) in
  let w := world (PushEvent (plain_event 1 5) (AddHandler 1 alarm new_manager)) 0%nat [] in
  ProcessEvents 1000 w = None.
Proof.
  intros alarm w.
  apply (ProcessEvents_flood_never_returns nat 1 alarm 1000 w).
  - intros key s event Hlook _ h Hh. cbn in Hlook.
    destruct (decide (key = 1)) as [-> | Hne].
    + rewrite lookup_insert_eq in Hlook. injection Hlook as <-. inversion Hh.
    + rewrite lookup_insert_ne, lookup_empty in Hlook by congruence. discriminate.
  - apply list_elem_of_singleton. reflexivity.
  - intros event st Hk. exists (plain_event 1 9).
    split; [apply list_elem_of_singleton; reflexivity | reflexivity].
  - exists (plain_event 1 5). split; [apply list_elem_of_singleton; reflexivity | reflexivity].
Defined.
